(** * hsgclosure.c: the deferred-disposal bridge of haskell-gi

    A shallow embedding of [base/c/hsgclosure.c].  The C functions are
    written as computations in a state-and-fault monad over an explicit
    process state: the cached debug flag, the environment, the recursive
    log mutex, the standard error stream, the GObject heap, the
    [BoxedFreeInfo] records obtained from [g_malloc], the idle queue of
    the main loop and the sequence of calls made to native primitives. *)

From Stdlib Require Import ZArith Lia.
From stdpp Require Import gmap strings list fin_maps.

Open Scope Z_scope.

(** ** Data *)

(** Pointers and [GType] tags are machine integers; [NULL] is [0]. *)
Abbreviation NULL := 0 (only parsing).
Abbreviation FALSE := 0 (only parsing).
Abbreviation TRUE := 1 (only parsing).

(** The part of a [GObject] instance the file looks at: the type of its
    class ([G_TYPE_FROM_INSTANCE]), [obj->ref_count], and the floating
    flag that [g_object_ref_sink] clears. *)
Record GObject := mkGObject {
  g_type : Z;
  ref_count : Z;
  floating : bool
}.

(** [typedef struct { GType gtype; gpointer boxed; } BoxedFreeInfo;] *)
Record BoxedFreeInfo := mkBoxedFreeInfo {
  gtype : Z;
  boxed : Z
}.

(** An opaque [GValue]: the type it holds and its payload. *)
Record GValue := mkGValue {
  value_type : Z;
  value_data : Z
}.

(** The two [GSourceFunc]s the file hands to [g_idle_add]. *)
Inductive GSourceFunc :=
| g_object_unref_in_main_loop_fn
| main_loop_boxed_free_helper_fn.

(** Arguments of a printf-style call. *)
Inductive PrintfArg :=
| ArgPtr (p : Z)
| ArgStr (s : string)
| ArgInt (n : Z).

(** What reaches [stderr]: the bytes of an [fwrite], or a format string
    together with its arguments ([vfprintf], [fprintf]).  Format strings
    are kept as they are spelled in the source. *)
Inductive Payload :=
| Bytes (bs : list Byte.byte)
| Formatted (fmt : string) (args : list PrintfArg).

(** Events on the log: operations on [log_mutex] and writes to [stderr],
    in program order. *)
Inductive LogEvent :=
| MutexLock
| MutexUnlock
| StderrWrite (p : Payload).

(** Calls into GLib, GObject and the GHC runtime that change or release
    something, in program order. *)
Inductive NativeCall :=
| CallObjectNew (t : Z) (props : list (string * GValue)) (result : Z)
| CallRefSink (obj : Z)
| CallUnref (obj : Z)
| CallBoxedFree (t : Z) (b : Z)
| CallMalloc (p : Z)
| CallFree (p : Z)
| CallIdleAdd (f : GSourceFunc) (data : Z)
| CallFreeHaskellFunctionPtr (p : Z).

Record State := mkState {
  debug_cache : Z;                      (* static int __print_debug_info *)
  environ : gmap string string;         (* the process environment *)
  getenv_count : nat;                   (* how often getenv was called *)
  thread_self : Z;                      (* g_thread_self () *)
  log_depth : nat;                      (* recursion count of log_mutex *)
  log_events : list LogEvent;
  objects : gmap Z GObject;             (* live GObject instances *)
  infos : gmap Z BoxedFreeInfo;         (* live g_malloc'ed records *)
  idle_queue : list (GSourceFunc * Z);  (* idle sources, oldest first *)
  native_calls : list NativeCall
}.

Definition set_debug_cache (v : Z) (st : State) : State :=
  mkState v (environ st) (getenv_count st) (thread_self st)
          (log_depth st) (log_events st) (objects st) (infos st)
          (idle_queue st) (native_calls st).

Definition set_environ (e : gmap string string) (st : State) : State :=
  mkState (debug_cache st) e (getenv_count st) (thread_self st)
          (log_depth st) (log_events st) (objects st) (infos st)
          (idle_queue st) (native_calls st).

Definition count_getenv (st : State) : State :=
  mkState (debug_cache st) (environ st) (S (getenv_count st)) (thread_self st)
          (log_depth st) (log_events st) (objects st) (infos st)
          (idle_queue st) (native_calls st).

Definition set_log (d : nat) (evs : list LogEvent) (st : State) : State :=
  mkState (debug_cache st) (environ st) (getenv_count st) (thread_self st)
          d evs (objects st) (infos st) (idle_queue st) (native_calls st).

Definition set_objects (objs : gmap Z GObject) (st : State) : State :=
  mkState (debug_cache st) (environ st) (getenv_count st) (thread_self st)
          (log_depth st) (log_events st) objs (infos st)
          (idle_queue st) (native_calls st).

Definition set_infos (recs : gmap Z BoxedFreeInfo) (st : State) : State :=
  mkState (debug_cache st) (environ st) (getenv_count st) (thread_self st)
          (log_depth st) (log_events st) (objects st) recs
          (idle_queue st) (native_calls st).

Definition set_idle_queue (q : list (GSourceFunc * Z)) (st : State) : State :=
  mkState (debug_cache st) (environ st) (getenv_count st) (thread_self st)
          (log_depth st) (log_events st) (objects st) (infos st)
          q (native_calls st).

Definition record_call (c : NativeCall) (st : State) : State :=
  mkState (debug_cache st) (environ st) (getenv_count st) (thread_self st)
          (log_depth st) (log_events st) (objects st) (infos st)
          (idle_queue st) (native_calls st ++ [c]).

(** What has been written to [stderr], oldest first. *)
Definition stderr (st : State) : list Payload :=
  omap (λ e, match e with StderrWrite p => Some p | _ => None end)
       (log_events st).

(** A process that has not yet looked at its debug flag. *)
Definition initial_state (env : gmap string string) (tid : Z) : State :=
  mkState (-1) env 0 tid 0 [] ∅ ∅ [] [].

(** ** The monad

    A computation takes the state and either faults ([None]: a null or
    dangling pointer was dereferenced, a buffer was read past its end) or
    returns a value and the new state. *)
Definition M (A : Type) : Type := State → option (A * State).

Definition ret {A} (a : A) : M A := λ st, Some (a, st).

Definition bind {A B} (m : M A) (k : A → M B) : M B := λ st,
  match m st with
  | Some (a, st') => k a st'
  | None => None
  end.

Definition fault {A} : M A := λ _, None.

Definition gets {A} (f : State → A) : M A := λ st, Some (f st, st).

Definition modify (f : State → State) : M unit := λ st, Some (tt, f st).

Declare Scope c_scope.
Delimit Scope c_scope with c.
Notation "'do' x <- m ; k" := (bind m (λ x, k))
  (at level 10, x name, m at level 99, k at level 200) : c_scope.
Notation "m ;; k" := (bind m (λ _, k))
  (at level 100, k at level 200, right associativity) : c_scope.
Notation "'when' b 'then' m" := (if b then m else ret tt)
  (at level 10, b at level 99, m at level 200) : c_scope.
Open Scope c_scope.

(** A C [int] used as a condition. *)
Definition truthy (x : Z) : bool := negb (x =? 0).

(** ** The debug flag *)

Definition HASKELL_GI_DEBUG_MEM : string := "HASKELL_GI_DEBUG_MEM".

(** [getenv]: the value of the variable, or [None] for [NULL]. *)
Definition getenv (name : string) : M (option string) := λ st,
  Some (environ st !! name, count_getenv st).

(** [print_debug_info]: the static starts at [-1]; the first call stores
    [getenv ("HASKELL_GI_DEBUG_MEM") != NULL] in it. *)
Definition print_debug_info : M Z :=
  do cached <- gets debug_cache;
  (if cached =? -1 then
     do e <- getenv HASKELL_GI_DEBUG_MEM;
     modify (set_debug_cache (if e is Some _ then 1 else 0))
   else ret tt);;
  gets debug_cache.

(** ** The log *)

(** [pthread_mutex_lock] on the recursive [log_mutex], seen from the
    thread that runs the computation. *)
Definition lock_log : M unit :=
  modify (λ st, set_log (S (log_depth st)) (log_events st ++ [MutexLock]) st).

Definition unlock_log : M unit :=
  modify (λ st, set_log (Nat.pred (log_depth st))
                        (log_events st ++ [MutexUnlock]) st).

Definition write_stderr (p : Payload) : M unit :=
  modify (λ st, set_log (log_depth st) (log_events st ++ [StderrWrite p]) st).

(** [fwrite (msg, len, 1, stderr)]: [len] bytes are read from [msg]. *)
Definition fwrite_stderr (msg : list Byte.byte) (len : Z) : M unit :=
  if (0 <=? len) && (len <=? Z.of_nat (length msg))
  then write_stderr (Bytes (take (Z.to_nat len) msg))
  else fault.

Definition dbg_log_with_len (msg : list Byte.byte) (len : Z) : M unit :=
  do dbg <- print_debug_info;
  when truthy dbg then
    (lock_log;;
     fwrite_stderr msg len;;
     unlock_log).

Definition dbg_log (msg : string) (args : list PrintfArg) : M unit :=
  do dbg <- print_debug_info;
  when truthy dbg then
    (lock_log;;
     write_stderr (Formatted msg args);;
     unlock_log).

(** ** The native side

    The file calls into GLib, GObject and the GHC runtime.  GLib's type
    system and constructors are collaborators that are given from
    outside: which types descend from which, what a type is called, and
    what [g_object_new_with_properties] builds.  The other primitives
    ([g_object_ref_sink], [g_object_unref], [g_boxed_free], [g_malloc],
    [g_free], [g_idle_add], [freeHaskellFunctionPtr]) are written out
    below as their reference documentation has them, on the part of the
    state they act on; each leaves a [NativeCall] behind. *)
Class NativeSystem := {
  (* [g_type_is_a (type, is_a_type)] for two different types *)
  g_type_is_a : Z → Z → bool;
  g_type_name : Z → string;
  G_TYPE_INITIALLY_UNOWNED : Z;
  (* [GLIB_CHECK_VERSION (2,54,0)] *)
  GLIB_CHECK_VERSION_2_54_0 : bool;
  (* the constructor: the type and the properties to set, the heap before;
     the new instance (or [NULL]) and the heap after *)
  construct : Z → list (string * GValue) → gmap Z GObject →
              Z * gmap Z GObject
}.

Section Bridge.
Context `{NativeSystem}.

Definition g_thread_self : M Z := gets thread_self.

(** Reading a field of [*obj]: a fault unless [obj] is a live instance. *)
Definition load_object (obj : Z) : M GObject := λ st,
  match objects st !! obj with
  | Some o => Some (o, st)
  | None => None
  end.

Definition G_TYPE_FROM_INSTANCE (obj : Z) : M Z :=
  do o <- load_object obj; ret (g_type o).

(** [(int) obj->ref_count]: the [guint] count seen as a 32-bit [int]. *)
Definition to_int (x : Z) : Z := (x + 2 ^ 31) mod 2 ^ 32 - 2 ^ 31.

Definition load_ref_count (obj : Z) : M Z :=
  do o <- load_object obj; ret (to_int (ref_count o)).

(** [G_TYPE_CHECK_INSTANCE_TYPE] of [gtype.h]: false for [NULL], true
    when the instance's class has exactly the type asked for, and
    otherwise what the type system says. *)
Definition G_TYPE_CHECK_INSTANCE_TYPE (instance type : Z) : M Z :=
  if instance =? NULL then ret FALSE
  else
    do t <- G_TYPE_FROM_INSTANCE instance;
    ret (if (t =? type) || g_type_is_a t type then TRUE else FALSE).

Definition G_IS_INITIALLY_UNOWNED (instance : Z) : M Z :=
  G_TYPE_CHECK_INSTANCE_TYPE instance G_TYPE_INITIALLY_UNOWNED.

(** C's [!]. *)
Definition lnot (x : Z) : Z := if x =? 0 then 1 else 0.

(** [g_object_ref_sink], as the comment in [dbg_g_object_new] has it: a
    floating instance loses the flag and keeps its count, so that the
    caller owns the reference that was floating; any other instance gains
    a reference, which the caller owns. *)
Definition ref_sink (o : GObject) : GObject :=
  if floating o
  then mkGObject (g_type o) (ref_count o) false
  else mkGObject (g_type o) (ref_count o + 1) false.

Definition g_object_ref_sink (obj : Z) : M unit :=
  do o <- load_object obj;
  modify (λ st, set_objects (<[obj := ref_sink o]> (objects st)) st);;
  modify (record_call (CallRefSink obj)).

(** [g_object_unref]: the count drops by one; the instance that loses its
    last reference is finalized and leaves the heap. *)
Definition g_object_unref (obj : Z) : M unit :=
  do o <- load_object obj;
  modify (λ st,
    set_objects
      (if ref_count o <=? 1 then delete obj (objects st)
       else <[obj := mkGObject (g_type o) (ref_count o - 1) (floating o)]>
              (objects st)) st);;
  modify (record_call (CallUnref obj)).

(** [g_boxed_free]: the free function registered for the type runs on the
    value; the heap of instances is not involved. *)
Definition g_boxed_free (t b : Z) : M unit :=
  modify (record_call (CallBoxedFree t b)).

(** [g_malloc (sizeof (BoxedFreeInfo))]: a block that is not [NULL] and
    overlaps nothing live; its two fields hold no meaningful value yet. *)
Definition g_malloc_info : M Z :=
  do p <- gets (λ st, fresh ({[NULL]} ∪ dom (infos st) ∪ dom (objects st)));
  modify (λ st, set_infos (<[p := mkBoxedFreeInfo 0 0]> (infos st)) st);;
  modify (record_call (CallMalloc p));;
  ret p.

Definition load_info (info : Z) : M BoxedFreeInfo := λ st,
  match infos st !! info with
  | Some r => Some (r, st)
  | None => None
  end.

Definition store_info (info : Z) (f : BoxedFreeInfo → BoxedFreeInfo) : M unit :=
  do r <- load_info info;
  modify (λ st, set_infos (<[info := f r]> (infos st)) st).

(** [g_free]: nothing for [NULL], otherwise the block is released. *)
Definition g_free (p : Z) : M unit :=
  if p =? NULL then ret tt
  else
    do _r <- load_info p;
    modify (λ st, set_infos (delete p (infos st)) st);;
    modify (record_call (CallFree p)).

(** [g_idle_add]: the source goes to the end of the idle queue of the
    default main context. *)
Definition g_idle_add (f : GSourceFunc) (data : Z) : M unit :=
  modify (λ st, set_idle_queue (idle_queue st ++ [(f, data)]) st);;
  modify (record_call (CallIdleAdd f data)).

(** [freeHaskellFunctionPtr] of the GHC runtime; it crashes on [NULL]. *)
Definition freeHaskellFunctionPtr (p : Z) : M unit :=
  if p =? NULL then fault
  else modify (record_call (CallFreeHaskellFunctionPtr p)).

(** Reading [n] entries of a C array. *)
Definition load_array {A} (arr : list A) (n : nat) : M (list A) :=
  if (n <=? length arr)%nat then ret (take n arr) else fault.

(** [g_object_new_with_properties] reads [n_props] names and values. *)
Definition g_object_new_with_properties
    (t : Z) (n_props : nat) (names : list string) (values : list GValue)
    : M Z :=
  do ns <- load_array names n_props;
  do vs <- load_array values n_props;
  do r <- gets (λ st, construct t (zip ns vs) (objects st));
  modify (set_objects r.2);;
  modify (record_call (CallObjectNew t (zip ns vs) r.1));;
  ret r.1.

(** [g_object_newv] takes the properties as [GParameter]s. *)
Definition g_object_newv
    (t : Z) (n_props : nat) (params : list (string * GValue)) : M Z :=
  do ps <- load_array params n_props;
  do r <- gets (λ st, construct t ps (objects st));
  modify (set_objects r.2);;
  modify (record_call (CallObjectNew t ps r.1));;
  ret r.1.

(** ** The functions of hsgclosure.c *)

Definition check_object_type (instance type : Z) : M Z :=
  if negb (instance =? NULL) then
    do c <- G_TYPE_CHECK_INSTANCE_TYPE instance type;
    ret (lnot (lnot c))
  else
    dbg_log "Check failed: got a null pointer\n" [];;
    ret 0.

Definition main_loop_boxed_free_helper (_info : Z) : M Z :=
  let info := _info in
  do dbg <- print_debug_info;
  (when truthy dbg then
     (do self <- g_thread_self;
      lock_log;;
      do r <- load_info info;
      dbg_log "Freeing a boxed object at %p from idle callback [thread: %p]\n"
              [ArgPtr (boxed r); ArgPtr self];;
      do r <- load_info info;
      dbg_log "\tIt is of type %s\n" [ArgStr (g_type_name (gtype r))]));;
  do r <- load_info info;
  g_boxed_free (gtype r) (boxed r);;
  do dbg <- print_debug_info;
  (when truthy dbg then
     (do r <- load_info info;
      dbg_log "\tdone freeing %p.\n" [ArgPtr (boxed r)];;
      unlock_log));;
  g_free info;;
  ret FALSE.

Definition boxed_free_helper (t b : Z) : M unit :=
  do info <- g_malloc_info;
  store_info info (λ r, mkBoxedFreeInfo t (boxed r));;
  store_info info (λ r, mkBoxedFreeInfo (gtype r) b);;
  g_idle_add main_loop_boxed_free_helper_fn info.

Definition dbg_g_object_disown (obj : Z) : M unit :=
  do dbg <- print_debug_info;
  when truthy dbg then
    (lock_log;;
     do self <- g_thread_self;
     dbg_log "Disowning a GObject at %p [thread: %p]\n"
             [ArgPtr obj; ArgPtr self];;
     do t <- G_TYPE_FROM_INSTANCE obj;
     dbg_log "\tIt is of type %s\n" [ArgStr (g_type_name t)];;
     do rc <- load_ref_count obj;
     dbg_log "\tIts refcount before disowning is %d\n" [ArgInt rc];;
     unlock_log).

Definition print_object_dbg_info (obj : Z) : M unit :=
  do self <- g_thread_self;
  dbg_log "Unref of %p from idle callback [thread: %p]\n"
          [ArgPtr obj; ArgPtr self];;
  do t <- G_TYPE_FROM_INSTANCE obj;
  dbg_log "\tIt is of type %s\n" [ArgStr (g_type_name t)];;
  do rc <- load_ref_count obj;
  dbg_log "\tIts refcount before unref is %d\n" [ArgInt rc].

Definition g_object_unref_in_main_loop (obj : Z) : M Z :=
  do dbg <- print_debug_info;
  (when truthy dbg then
     (lock_log;;
      print_object_dbg_info obj));;
  g_object_unref obj;;
  do dbg <- print_debug_info;
  (when truthy dbg then
     (write_stderr (Formatted "\tUnref done\n" []);;
      unlock_log));;
  ret FALSE.

Definition dbg_g_object_unref (obj : Z) : M unit :=
  g_idle_add g_object_unref_in_main_loop_fn obj.

(** The loop of the pre-2.54 branch: [params[i]] takes [values[i]] and
    [names[i]] for [i] below [n_props]. *)
Fixpoint copy_params (i : nat) (n_props : nat)
    (names : list string) (values : list GValue)
    : M (list (string * GValue)) :=
  match n_props with
  | O => ret []
  | S n =>
      match values !! i, names !! i with
      | Some v, Some nm =>
          do rest <- copy_params (S i) n names values;
          ret ((nm, v) :: rest)
      | _, _ => fault
      end
  end.

Definition dbg_g_object_new
    (t : Z) (n_props : nat) (names : list string) (values : list GValue)
    : M Z :=
  do dbg <- print_debug_info;
  (when truthy dbg then
     (do self <- g_thread_self;
      lock_log;;
      dbg_log "Creating a new GObject of type %s [thread: %p]\n"
              [ArgStr (g_type_name t); ArgPtr self]));;
  do result <-
    (if GLIB_CHECK_VERSION_2_54_0
     then g_object_new_with_properties t n_props names values
     else
       do params <- copy_params 0 n_props names values;
       g_object_newv t n_props params);
  do iu <- G_IS_INITIALLY_UNOWNED result;
  (when truthy iu then g_object_ref_sink result);;
  do dbg <- print_debug_info;
  (when truthy dbg then
     (dbg_log "\tdone, got a pointer at %p\n" [ArgPtr result];;
      unlock_log));;
  ret result.

Definition safeFreeFunPtr (ptr : Z) : M unit :=
  when negb (ptr =? NULL) then freeHaskellFunctionPtr ptr.

(** ** The main loop

    An idle source is dispatched by calling its function on its data; the
    source is removed when the function returns [FALSE] and stays queued
    otherwise. *)
Definition call_source (f : GSourceFunc) (data : Z) : M Z :=
  match f with
  | g_object_unref_in_main_loop_fn => g_object_unref_in_main_loop data
  | main_loop_boxed_free_helper_fn => main_loop_boxed_free_helper data
  end.

Definition dispatch_idle : M bool :=
  do q <- gets idle_queue;
  match q with
  | [] => ret false
  | (f, data) :: rest =>
      modify (set_idle_queue rest);;
      do again <- call_source f data;
      (when truthy again then
         modify (λ st, set_idle_queue (idle_queue st ++ [(f, data)]) st));;
      ret true
  end.

(** Dispatching up to [n] sources. *)
Fixpoint run_main_loop (n : nat) : M unit :=
  match n with
  | O => ret tt
  | S n' =>
      do more <- dispatch_idle;
      if more then run_main_loop n' else ret tt
  end.

End Bridge.

(** ** The environment from outside

    Other code of the process may change the environment at any time. *)
Definition setenv (name value : string) : M unit :=
  modify (λ st, set_environ (<[name := value]> (environ st)) st).

Definition unsetenv (name : string) : M unit :=
  modify (λ st, set_environ (delete name (environ st)) st).

(** ** What the flag is going to be

    [flag st] is the value every read of the flag returns from [st] on,
    and [resolve st] the state after such a read. *)
Definition flag (st : State) : Z :=
  if debug_cache st =? -1
  then (if environ st !! HASKELL_GI_DEBUG_MEM is Some _ then 1 else 0)
  else debug_cache st.

Definition resolve (st : State) : State :=
  if debug_cache st =? -1
  then set_debug_cache (flag st) (count_getenv st)
  else st.

(** Diagnostics are off: the flag is cached as [0], or it is not cached
    yet and the variable is not in the environment. *)
Definition debug_disabled (st : State) : Prop :=
  debug_cache st = 0 ∨
  (debug_cache st = -1 ∧ environ st !! HASKELL_GI_DEBUG_MEM = None).

(** ** Observations *)

(** The part of the state that native code has: instances, records, the
    idle queue and the calls made so far.  The debug flag, the
    environment and the log are left out. *)
Definition native (st : State)
    : gmap Z GObject * gmap Z BoxedFreeInfo *
      list (GSourceFunc * Z) * list NativeCall :=
  (objects st, infos st, idle_queue st, native_calls st).

(** The handles [g_object_unref] was called on, oldest first. *)
Definition unref_calls (st : State) : list Z :=
  omap (λ c, if c is CallUnref obj then Some obj else None) (native_calls st).

(** The (type, value) pairs [g_boxed_free] was called on, oldest first. *)
Definition boxed_free_calls (st : State) : list (Z * Z) :=
  omap (λ c, if c is CallBoxedFree t b then Some (t, b) else None)
       (native_calls st).

(** References on an instance that somebody owns: all of them, but for the
    floating one. *)
Definition counted_refs (o : GObject) : Z :=
  if floating o then ref_count o - 1 else ref_count o.

(** What [g_object_unref] leaves of the heap. *)
Definition unref_heap (obj : Z) (o : GObject) (objs : gmap Z GObject)
    : gmap Z GObject :=
  if ref_count o <=? 1 then delete obj objs
  else <[obj := mkGObject (g_type o) (ref_count o - 1) (floating o)]> objs.

(** Calling a computation [n] times in a row. *)
Fixpoint repeat_call (n : nat) (m : M unit) : M unit :=
  match n with
  | O => ret tt
  | S n' => m;; repeat_call n' m
  end.

(** Submitting a list of requests, one after the other. *)
Fixpoint submit_all {A} (submit : A → M unit) (reqs : list A) : M unit :=
  match reqs with
  | [] => ret tt
  | r :: rest => submit r;; submit_all submit rest
  end.

(** The instances of [hs] are live, and each has at least as many
    references as it has occurrences in [hs]: one per release asked for. *)
Definition holds_references (st : State) (hs : list Z) : Prop :=
  ∀ h, h ∈ hs →
    ∃ o, objects st !! h = Some o ∧
         Z.of_nat (count_occ Z.eq_dec hs h) ≤ ref_count o.

(** A request to free the boxed value [r.2] of type [r.1], and the record
    that is made for it. *)
Definition boxed_request (r : Z * Z) : M unit := boxed_free_helper r.1 r.2.

Definition record_of (r : Z * Z) : BoxedFreeInfo := mkBoxedFreeInfo r.1 r.2.

(** What a call returned. *)
Inductive RetVal :=
| Void
| Int (z : Z).

(** The exported operations and the two deferred callbacks. *)
Inductive ApiCall :=
| Call_check_object_type (instance type : Z)
| Call_dbg_g_object_new
    (t : Z) (n_props : nat) (names : list string) (values : list GValue)
| Call_dbg_g_object_unref (obj : Z)
| Call_g_object_unref_in_main_loop (obj : Z)
| Call_boxed_free_helper (t b : Z)
| Call_main_loop_boxed_free_helper (info : Z)
| Call_dbg_g_object_disown (obj : Z)
| Call_safeFreeFunPtr (ptr : Z).

(** What can be seen of a call from the native side: whether it returned,
    what it returned, and the native part of the state it left. *)
Definition observe (r : option (RetVal * State)) :=
  match r with
  | Some (v, st) => Some (v, native st)
  | None => None
  end.

Section Observations.
Context `{NativeSystem}.

(** The instance check of [G_TYPE_CHECK_INSTANCE_TYPE] on a live
    instance. *)
Definition type_matches (o : GObject) (type : Z) : bool :=
  (g_type o =? type) || g_type_is_a (g_type o) type.

Definition initially_unowned (o : GObject) : bool :=
  type_matches o G_TYPE_INITIALLY_UNOWNED.

(** The construction step of [dbg_g_object_new], as the GLib at hand has
    it. *)
Definition construct_instance
    (t : Z) (n_props : nat) (names : list string) (values : list GValue)
    : M Z :=
  if GLIB_CHECK_VERSION_2_54_0
  then g_object_new_with_properties t n_props names values
  else
    do params <- copy_params 0 n_props names values;
    g_object_newv t n_props params.

Definition run_call (c : ApiCall) : M RetVal :=
  match c with
  | Call_check_object_type instance type =>
      do r <- check_object_type instance type; ret (Int r)
  | Call_dbg_g_object_new t n_props names values =>
      do r <- dbg_g_object_new t n_props names values; ret (Int r)
  | Call_dbg_g_object_unref obj =>
      dbg_g_object_unref obj;; ret Void
  | Call_g_object_unref_in_main_loop obj =>
      do r <- g_object_unref_in_main_loop obj; ret (Int r)
  | Call_boxed_free_helper t b =>
      boxed_free_helper t b;; ret Void
  | Call_main_loop_boxed_free_helper info =>
      do r <- main_loop_boxed_free_helper info; ret (Int r)
  | Call_dbg_g_object_disown obj =>
      dbg_g_object_disown obj;; ret Void
  | Call_safeFreeFunPtr ptr =>
      safeFreeFunPtr ptr;; ret Void
  end.

(** The handle a call takes designates a live instance, where the call
    takes the handle of an instance that is not allowed to be [NULL]. *)
Definition handle_live (c : ApiCall) (st : State) : Prop :=
  match c with
  | Call_dbg_g_object_disown obj => is_Some (objects st !! obj)
  | _ => True
  end.

(** The native calls a queue of idle sources is going to make: one
    [g_object_unref] per deferred unref, and per deferred boxed free one
    [g_boxed_free] on what its record holds, then the [g_free] of the
    record. *)
Definition expected_calls (recs : gmap Z BoxedFreeInfo)
    (q : list (GSourceFunc * Z)) : list NativeCall :=
  flat_map (λ src,
    match src.1 with
    | g_object_unref_in_main_loop_fn => [CallUnref src.2]
    | main_loop_boxed_free_helper_fn =>
        match recs !! src.2 with
        | Some r => [CallBoxedFree (gtype r) (boxed r); CallFree src.2]
        | None => []
        end
    end) q.

(** The handles of the deferred unrefs of a queue, and the records of its
    deferred boxed frees. *)
Definition unref_handles (q : list (GSourceFunc * Z)) : list Z :=
  omap (λ src, if src.1 is g_object_unref_in_main_loop_fn
               then Some src.2 else None) q.

Definition boxed_records (q : list (GSourceFunc * Z)) : list Z :=
  omap (λ src, if src.1 is main_loop_boxed_free_helper_fn
               then Some src.2 else None) q.

(** A queue whose callbacks are going to find what they dereference:
    every instance awaiting unrefs is live and has at least as many
    references as there are unrefs queued for it, and every boxed free has
    a live record of its own. *)
Definition queue_ready (st : State) (q : list (GSourceFunc * Z)) : Prop :=
  (∀ h, h ∈ unref_handles q →
     ∃ o, objects st !! h = Some o ∧
          Z.of_nat (count_occ Z.eq_dec (unref_handles q) h) ≤ ref_count o) ∧
  NoDup (boxed_records q) ∧
  (∀ p, p ∈ boxed_records q → p ≠ NULL ∧ is_Some (infos st !! p)).

End Observations.

(** A small native system to run the functions on: type [20] is
    [GInitiallyUnowned], type [21] descends from it, and the constructor
    puts a fresh instance with one reference on the heap, floating when
    its type is initially unowned; it makes nothing of type [0]. *)
Definition toy_system : NativeSystem := {|
  g_type_is_a := λ t u, (t =? 21) && (u =? 20);
  g_type_name := λ t, if t =? 20 then "GInitiallyUnowned"
                      else if t =? 21 then "GtkWidget" else "GObject";
  G_TYPE_INITIALLY_UNOWNED := 20;
  GLIB_CHECK_VERSION_2_54_0 := true;
  construct := λ t props objs,
    if t =? 0 then (0, objs)
    else
      let p := fresh ({[0]} ∪ dom objs) in
      (p, <[p := mkGObject t 1 ((t =? 20) || (t =? 21))]> objs)
|}.

(** ** Records on the log

    What a thread does to the log is a sequence of [LogEvent]s.  The
    writes a thread makes between taking [log_mutex] and giving it up
    again form one record. *)

(** The depth of the mutex after the events, starting at depth [d];
    [None] when the thread writes without holding the mutex or unlocks a
    mutex it does not hold. *)
Fixpoint locked_run (d : nat) (evs : list LogEvent) : option nat :=
  match evs with
  | [] => Some d
  | MutexLock :: rest => locked_run (S d) rest
  | MutexUnlock :: rest =>
      match d with
      | O => None
      | S d' => locked_run d' rest
      end
  | StderrWrite _ :: rest =>
      match d with
      | O => None
      | S _ => locked_run d rest
      end
  end.

(** Every write under the mutex, and the mutex given back at the end. *)
Definition bracketed (evs : list LogEvent) : Prop :=
  locked_run 0 evs = Some 0%nat.

(** Cutting a sequence of events into records: the depth of the mutex,
    the records that are complete, the lines of the record that is open.
    A write made without the mutex is a record of its own. *)
Definition record_step
    (s : nat * list (list Payload) * list Payload) (e : LogEvent)
    : nat * list (list Payload) * list Payload :=
  let '(d, closed, cur) := s in
  match e with
  | MutexLock => (S d, closed, cur)
  | MutexUnlock =>
      match d with
      | O => (O, closed, cur)
      | S O => (O, closed ++ [cur], [])
      | S d' => (d', closed, cur)
      end
  | StderrWrite p =>
      match d with
      | O => (O, closed ++ [[p]], [])
      | S _ => (d, closed, cur ++ [p])
      end
  end.

Definition record_state (evs : list LogEvent)
    : nat * list (list Payload) * list Payload :=
  fold_left record_step evs (O, [], []).

(** The records of a sequence of events, the open one last. *)
Definition records (evs : list LogEvent) : list (list Payload) :=
  let '(d, closed, cur) := record_state evs in
  match d with
  | O => closed
  | S _ => closed ++ [cur]
  end.

(** ** Threads

    Threads are numbered.  Each has a program, the events it is going to
    make; the world keeps what each thread has done and has left to do,
    the thread that holds the recursive mutex and how often it has locked
    it, and the output with the thread that wrote each line. *)
Record World := mkWorld {
  mutex_owner : option nat;
  mutex_count : nat;
  executed : gmap nat (list LogEvent);
  pending : gmap nat (list LogEvent);
  output : list (nat * Payload)
}.

Definition start (progs : gmap nat (list LogEvent)) : World :=
  mkWorld None 0 ((λ _, []) <$> progs) progs [].

(** Thread [t] has made event [e] and has [rest] left. *)
Definition advance (t : nat) (e : LogEvent) (rest : list LogEvent)
    (owner : option nat) (count : nat) (out : list (nat * Payload))
    (w : World) : World :=
  mkWorld owner count
          (<[t := default [] (executed w !! t) ++ [e]]> (executed w))
          (<[t := rest]> (pending w))
          out.

(** One step of thread [t].  [pthread_mutex_lock] on a recursive mutex
    succeeds when the mutex is free or the thread's own, and waits
    otherwise; [pthread_mutex_unlock] by the owner gives the mutex up when
    the count reaches zero, and by any other thread is an error without
    effect. *)
Definition thread_step (t : nat) (w : World) : World :=
  match pending w !! t with
  | Some (e :: rest) =>
      match e with
      | MutexLock =>
          match mutex_owner w with
          | None => advance t e rest (Some t) 1 (output w) w
          | Some u =>
              if decide (u = t)
              then advance t e rest (Some t) (S (mutex_count w)) (output w) w
              else w
          end
      | MutexUnlock =>
          match mutex_owner w with
          | Some u =>
              if decide (u = t)
              then match mutex_count w with
                   | S (S c) => advance t e rest (Some t) (S c) (output w) w
                   | _ => advance t e rest None 0 (output w) w
                   end
              else advance t e rest (mutex_owner w) (mutex_count w)
                           (output w) w
          | None =>
              advance t e rest (mutex_owner w) (mutex_count w) (output w) w
          end
      | StderrWrite p =>
          advance t e rest (mutex_owner w) (mutex_count w)
                  (output w ++ [(t, p)]) w
      end
  | _ => w
  end.

(** The threads take steps in the order the scheduler picks them. *)
Definition run_schedule (sched : list nat) (w : World) : World :=
  fold_left (λ w t, thread_step t w) sched w.

(** The lines of a list of records, each with the thread of its record. *)
Definition lines (order : list (nat * list Payload)) : list (nat * Payload) :=
  flat_map (λ r, map (pair r.1) r.2) order.

(** The records of thread [t] in a list of records. *)
Definition records_of_thread (t : nat) (order : list (nat * list Payload))
    : list (list Payload) :=
  (filter (λ r, r.1 = t) order).*2.

(** What holds of a world that disciplined threads have reached, with
    [order] the records completed so far: the output is these records one
    after the other, then the lines of the record the owner of the mutex
    has open; each thread has its share of the records, is at depth zero
    unless it owns the mutex, and has a bracketed rest. *)
Definition world_inv (progs : gmap nat (list LogEvent)) (w : World)
    (order : list (nat * list Payload)) : Prop :=
  (mutex_owner w = None → mutex_count w = O) ∧
  (∀ t, mutex_owner w = Some t →
     (0 < mutex_count w)%nat ∧ is_Some (progs !! t)) ∧
  (∀ t prog, progs !! t = Some prog →
     ∃ done rest d closed cur,
       executed w !! t = Some done ∧ pending w !! t = Some rest ∧
       prog = done ++ rest ∧
       record_state done = (d, closed, cur) ∧
       locked_run d rest = Some O ∧
       d = (if decide (mutex_owner w = Some t) then mutex_count w else O) ∧
       (d = O → cur = []) ∧
       records_of_thread t order = closed) ∧
  (∀ t, is_Some (pending w !! t) → is_Some (progs !! t)) ∧
  output w =
    lines order ++
    match mutex_owner w with
    | Some t => map (pair t) (record_state (default [] (executed w !! t))).2
    | None => []
    end.

(** The calls that write to the log: the exported operations, the
    callbacks, and [dbg_log_with_len]. *)
Inductive LogCall :=
| Exported (c : ApiCall)
| Call_dbg_log_with_len (msg : list Byte.byte) (len : Z).

Section LogCalls.
Context `{NativeSystem}.

Definition run_log_call (c : LogCall) : M RetVal :=
  match c with
  | Exported c => run_call c
  | Call_dbg_log_with_len msg len => dbg_log_with_len msg len;; ret Void
  end.

(** A history of a process as far as the flag is concerned: reads of the
    flag, calls into the file, and changes of the environment in
    between. *)
Inductive ProcessStep :=
| ReadFlag
| Setenv (name value : string)
| Unsetenv (name : string)
| Call (c : LogCall).

(** Runs the history: what each read of the flag returned, and the state
    at the end, or [None] for a process that died in a call that
    faulted. *)
Fixpoint run_process (steps : list ProcessStep) (st : State)
    : list Z * option State :=
  match steps with
  | [] => ([], Some st)
  | ReadFlag :: rest =>
      match print_debug_info st with
      | Some (v, st') =>
          let r := run_process rest st' in (v :: r.1, r.2)
      | None => ([], None)
      end
  | Setenv name value :: rest =>
      match setenv name value st with
      | Some (_, st') => run_process rest st'
      | None => ([], None)
      end
  | Unsetenv name :: rest =>
      match unsetenv name st with
      | Some (_, st') => run_process rest st'
      | None => ([], None)
      end
  | Call c :: rest =>
      match run_log_call c st with
      | Some (_, st') => run_process rest st'
      | None => ([], None)
      end
  end.

End LogCalls.

(** ** Sample states

    A process on thread [7] with two instances on the heap: a plain
    object at [5] with two references and a floating widget at [6].  The
    debug variable is in the environment or not; the flag has not been
    read yet. *)
Definition sample_state (debug : bool) : State :=
  mkState (-1)
          (if debug then {[HASKELL_GI_DEBUG_MEM := "1"]} else ∅)
          0 7 0 []
          {[5 := mkGObject 80 2 false; 6 := mkGObject 21 1 true]}
          ∅ [] [].

(** Two threads that each write a two-line record, the first with a
    nested lock as [dbg_log] makes it. *)
Definition sample_threads : gmap nat (list LogEvent) :=
  {[ 0%nat := [MutexLock; MutexLock; StderrWrite (Formatted "a1" []);
               MutexUnlock; StderrWrite (Formatted "a2" []); MutexUnlock];
     1%nat := [MutexLock; StderrWrite (Formatted "b1" []);
               StderrWrite (Formatted "b2" []); MutexUnlock] ]}.

Definition sample_schedule : list nat :=
  [0; 1; 0; 1; 0; 1; 0; 0; 1; 0; 1; 1; 1; 0; 1]%nat.

(** ** Diagnostics on, and requests of both kinds *)

(** Diagnostics are on: the flag is cached as something other than [0],
    or it is not cached yet and the variable is in the environment. *)
Definition debug_enabled (st : State) : Prop := flag st ≠ 0.

(** The deepest the mutex gets during the events, from depth [d]. *)
Fixpoint deepest (d : nat) (evs : list LogEvent) : nat :=
  match evs with
  | [] => d
  | MutexLock :: rest => Nat.max d (deepest (S d) rest)
  | MutexUnlock :: rest => Nat.max d (deepest (Nat.pred d) rest)
  | StderrWrite _ :: rest => deepest d rest
  end.

(** A request for a deferred disposal: of a reference on an instance, or
    of a boxed value of a given type. *)
Inductive Request :=
| ReleaseObject (obj : Z)
| FreeBoxed (t b : Z).

Definition submit_request (r : Request) : M unit :=
  match r with
  | ReleaseObject obj => dbg_g_object_unref obj
  | FreeBoxed t b => boxed_free_helper t b
  end.

(** The native call that disposes of what a request names. *)
Definition disposal_of (r : Request) : NativeCall :=
  match r with
  | ReleaseObject obj => CallUnref obj
  | FreeBoxed t b => CallBoxedFree t b
  end.

(** The disposals among the native calls made so far, oldest first. *)
Definition is_disposal (c : NativeCall) : bool :=
  match c with
  | CallUnref _ | CallBoxedFree _ _ => true
  | _ => false
  end.

Definition disposal_calls (st : State) : list NativeCall :=
  filter (λ c, is_disposal c = true) (native_calls st).

(** The instances the requests want released. *)
Definition released_handles (reqs : list Request) : list Z :=
  omap (λ r, if r is ReleaseObject obj then Some obj else None) reqs.

(** The source that serves a request, given the records at hand. *)
Definition serves (recs : gmap Z BoxedFreeInfo)
    (src : GSourceFunc * Z) (r : Request) : Prop :=
  match r with
  | ReleaseObject obj => src = (g_object_unref_in_main_loop_fn, obj)
  | FreeBoxed t b =>
      src.1 = main_loop_boxed_free_helper_fn ∧
      recs !! src.2 = Some (mkBoxedFreeInfo t b)
  end.

(** What is left of an instance that gives up one reference: nothing when
    it was the last one. *)
Definition release_one (o : GObject) : option GObject :=
  if ref_count o <=? 1 then None
  else Some (mkGObject (g_type o) (ref_count o - 1) (floating o)).

(** The calls that frame their lines with a lock of their own: the
    construction, the disown and the two callbacks. *)
Definition frames_record (c : LogCall) : bool :=
  match c with
  | Exported (Call_dbg_g_object_new _ _ _ _)
  | Exported (Call_g_object_unref_in_main_loop _)
  | Exported (Call_main_loop_boxed_free_helper _)
  | Exported (Call_dbg_g_object_disown _) => true
  | _ => false
  end.

(** Two more sample states, with diagnostics on: one with a record for a
    boxed value of type [40] at [77], and one with two deferred unrefs
    and a deferred boxed free waiting in the idle queue. *)
Definition sample_boxed_state : State :=
  mkState (-1) {[HASKELL_GI_DEBUG_MEM := "1"]} 0 7 0 []
          ∅ {[9 := mkBoxedFreeInfo 40 77]} [] [].

Definition sample_queued_state : State :=
  mkState (-1) {[HASKELL_GI_DEBUG_MEM := "1"]} 0 7 0 []
          {[5 := mkGObject 80 2 false; 6 := mkGObject 21 1 true]}
          {[9 := mkBoxedFreeInfo 40 77]}
          [(g_object_unref_in_main_loop_fn, 5);
           (main_loop_boxed_free_helper_fn, 9);
           (g_object_unref_in_main_loop_fn, 6)]
          [].
(** ** The flag accessor *)

Lemma print_debug_info_eq st :
  print_debug_info st = Some (flag st, resolve st).
Proof.
  unfold print_debug_info, flag, resolve, bind, gets, getenv, modify, ret.
  cbn. destruct (debug_cache st =? -1) eqn:E; cbn; [|done].
  unfold flag. rewrite E. done.
Qed.

Lemma flag_range st : debug_cache st = -1 → flag st = 0 ∨ flag st = 1.
Proof.
  intros E. unfold flag. rewrite E. cbn.
  destruct (environ st !! HASKELL_GI_DEBUG_MEM); auto.
Qed.

Lemma debug_cache_resolve st : debug_cache (resolve st) = flag st.
Proof.
  unfold resolve. destruct (debug_cache st =? -1) eqn:E; cbn; [done|].
  unfold flag. by rewrite E.
Qed.

Lemma resolved_neq st : debug_cache (resolve st) ≠ -1.
Proof.
  rewrite debug_cache_resolve.
  destruct (debug_cache st =? -1) eqn:E.
  - apply Z.eqb_eq in E. destruct (flag_range st E); lia.
  - unfold flag. rewrite E. by apply Z.eqb_neq.
Qed.

Lemma flag_cached st : debug_cache st ≠ -1 → flag st = debug_cache st.
Proof. intros E. apply Z.eqb_neq in E. unfold flag. by rewrite E. Qed.

Lemma resolve_cached st : debug_cache st ≠ -1 → resolve st = st.
Proof. intros E. apply Z.eqb_neq in E. unfold resolve. by rewrite E. Qed.

Lemma flag_resolve st : flag (resolve st) = flag st.
Proof.
  rewrite flag_cached by apply resolved_neq. apply debug_cache_resolve.
Qed.

Lemma resolve_resolve st : resolve (resolve st) = resolve st.
Proof. apply resolve_cached, resolved_neq. Qed.

Lemma getenv_count_resolve st :
  getenv_count (resolve st) =
  if debug_cache st =? -1 then S (getenv_count st) else getenv_count st.
Proof. unfold resolve. by destruct (debug_cache st =? -1). Qed.

Lemma debug_disabled_flag st : debug_disabled st ↔ flag st = 0.
Proof.
  unfold debug_disabled, flag. split.
  - intros [E | [E1 E2]]; [by rewrite E | by rewrite E1, E2].
  - destruct (debug_cache st =? -1) eqn:E.
    + apply Z.eqb_eq in E.
      destruct (environ st !! HASKELL_GI_DEBUG_MEM); [lia | auto].
    + auto.
Qed.

(** ** The two logging functions *)

Lemma dbg_log_off fmt args st :
  flag st = 0 → dbg_log fmt args st = Some (tt, resolve st).
Proof.
  intros E. unfold dbg_log, bind. rewrite print_debug_info_eq, E. done.
Qed.

Lemma dbg_log_with_len_off msg len st :
  flag st = 0 → dbg_log_with_len msg len st = Some (tt, resolve st).
Proof.
  intros E. unfold dbg_log_with_len, bind.
  rewrite print_debug_info_eq, E. done.
Qed.

Lemma log_events_resolve st : log_events (resolve st) = log_events st.
Proof. unfold resolve. by destruct (debug_cache st =? -1). Qed.

(** ** Running the functions symbolically

    The functions of the file are straight-line code over the state: on a
    state given by its fields they unfold to a tree of tests (on the
    cached flag, on the environment, on whether a pointer is live), and
    each path ends in an explicit state. *)

#[local] Arguments Z.eqb : simpl nomatch.
#[local] Arguments Z.leb : simpl nomatch.
#[local] Arguments Z.add : simpl nomatch.
#[local] Arguments Z.sub : simpl nomatch.

Ltac unfold_state :=
  unfold set_debug_cache, count_getenv, set_environ, set_log, set_objects,
    set_infos, set_idle_queue, record_call in *.

Ltac unfold_monad := unfold bind, ret, gets, modify, fault in *.

Ltac unfold_ops :=
  unfold dbg_g_object_new, safeFreeFunPtr, g_object_unref_in_main_loop,
    dbg_g_object_unref, print_object_dbg_info, dbg_g_object_disown,
    boxed_free_helper, main_loop_boxed_free_helper, check_object_type,
    g_object_newv, g_object_new_with_properties, load_array,
    freeHaskellFunctionPtr, g_idle_add, g_free, store_info, load_info,
    g_boxed_free, g_object_unref, g_object_ref_sink,
    G_IS_INITIALLY_UNOWNED, G_TYPE_CHECK_INSTANCE_TYPE, load_ref_count,
    G_TYPE_FROM_INSTANCE, load_object, g_thread_self,
    dbg_log, dbg_log_with_len, fwrite_stderr, write_stderr, unlock_log,
    lock_log, print_debug_info, getenv, truthy, HASKELL_GI_DEBUG_MEM in *.

Ltac break_on x :=
  lazymatch x with
  | context [match _ with _ => _ end] => fail
  | negb ?y => break_on y
  | _ =>
      first [ match goal with E : x = _ |- _ => rewrite E end
            | destruct x eqn:? ]
  end.

Ltac break_match :=
  match goal with
  | |- context [match ?x with _ => _ end] => break_on x
  end.

Ltac crunch :=
  unfold_ops; unfold_monad; unfold_state; cbn; repeat (break_match; cbn).

Lemma native_inv st st' :
  native st' = native st →
  objects st' = objects st ∧ infos st' = infos st ∧
  idle_queue st' = idle_queue st ∧ native_calls st' = native_calls st.
Proof. unfold native. intros [= -> -> -> ->]. done. Qed.

Section BridgeProofs.
Context `{NativeSystem}.

(** *** [check_object_type] *)

Lemma check_object_type_null st type :
  ∃ st', check_object_type NULL type st = Some (0, st') ∧
         native st' = native st ∧ log_depth st' = log_depth st.
Proof.
  destruct st as [c e n t d l ob inf q nc]. unfold native.
  crunch; eexists; (split; [reflexivity|]); done.
Qed.

Lemma check_object_type_live st instance type o :
  instance ≠ NULL →
  objects st !! instance = Some o →
  check_object_type instance type st =
    Some (if type_matches o type then 1 else 0, st).
Proof.
  intros Hn%Z.eqb_neq Ho.
  unfold check_object_type, G_TYPE_CHECK_INSTANCE_TYPE, G_TYPE_FROM_INSTANCE,
    load_object, type_matches.
  unfold_monad. rewrite Hn. cbn. rewrite Ho.
  by destruct ((g_type o =? type) || g_type_is_a (g_type o) type).
Qed.

(** C4: the type check returns on every handle that is [NULL] or a live
    instance.  On [NULL] it returns [0] and leaves the native state
    alone; on a live instance it returns [1] when the type of the
    instance is the expected type or descends from it in the native type
    system, and [0] when it does not, and leaves the whole state alone. *)
Theorem check_object_type_total (st : State) (instance type : Z) :
  (instance = NULL →
   ∃ st', check_object_type instance type st = Some (0, st') ∧
          native st' = native st) ∧
  (∀ o, instance ≠ NULL → objects st !! instance = Some o →
     ∃ r, check_object_type instance type st = Some (r, st) ∧
          (r = 1 ↔ type_matches o type = true) ∧
          (r = 0 ↔ type_matches o type = false)).
Proof.
  split.
  - intros ->. destruct (check_object_type_null st type) as (st' & E & N & _).
    by exists st'.
  - intros o Hn Ho. rewrite (check_object_type_live _ _ _ _ Hn Ho).
    eexists. split; [done|]. destruct (type_matches o type); split; split; done.
Qed.

(** *** [safeFreeFunPtr] *)

Lemma freeHaskellFunctionPtr_null st : freeHaskellFunctionPtr NULL st = None.
Proof. done. Qed.

Lemma safeFreeFunPtr_null st : safeFreeFunPtr NULL st = Some (tt, st).
Proof. done. Qed.

Lemma safeFreeFunPtr_nonnull st ptr :
  ptr ≠ NULL →
  safeFreeFunPtr ptr st =
    Some (tt, record_call (CallFreeHaskellFunctionPtr ptr) st).
Proof.
  intros Hn%Z.eqb_neq. unfold safeFreeFunPtr, freeHaskellFunctionPtr.
  by rewrite Hn.
Qed.

Lemma repeat_safeFreeFunPtr_null n : ∀ st,
  repeat_call n (safeFreeFunPtr NULL) st = Some (tt, st).
Proof.
  induction n as [|n IH]; intros st; [done|].
  cbn [repeat_call]. unfold bind. rewrite safeFreeFunPtr_null. apply IH.
Qed.

(** C5: the safe release returns on every pointer.  On [NULL] it leaves
    the state as it is and calls nothing, however often it is called; on
    any other pointer it calls [freeHaskellFunctionPtr] on that pointer,
    once. *)
Theorem safeFreeFunPtr_total (st : State) (ptr : Z) (n : nat) :
  is_Some (safeFreeFunPtr ptr st) ∧
  repeat_call n (safeFreeFunPtr NULL) st = Some (tt, st) ∧
  (ptr ≠ NULL →
   ∃ st', safeFreeFunPtr ptr st = Some (tt, st') ∧
          native_calls st' =
            native_calls st ++ [CallFreeHaskellFunctionPtr ptr] ∧
          objects st' = objects st ∧ infos st' = infos st ∧
          idle_queue st' = idle_queue st ∧
          log_events st' = log_events st).
Proof.
  split; [|split].
  - destruct (decide (ptr = NULL)) as [->|Hn].
    + by rewrite safeFreeFunPtr_null.
    + by rewrite safeFreeFunPtr_nonnull.
  - apply repeat_safeFreeFunPtr_null.
  - intros Hn. rewrite safeFreeFunPtr_nonnull by done.
    eexists. split; [done|]. done.
Qed.

(** *** [dbg_g_object_disown] *)

Lemma dbg_g_object_disown_frame st obj st' :
  dbg_g_object_disown obj st = Some (tt, st') →
  native st' = native st ∧ log_depth st' = log_depth st ∧
  thread_self st' = thread_self st ∧ environ st' = environ st.
Proof.
  destruct st as [c e n t d l ob inf q nc]. unfold native.
  crunch; intros [= <-]; done.
Qed.

Lemma dbg_g_object_disown_off st obj :
  debug_disabled st → dbg_g_object_disown obj st = Some (tt, resolve st).
Proof.
  intros E%debug_disabled_flag. unfold dbg_g_object_disown, bind.
  rewrite print_debug_info_eq, E. done.
Qed.

Lemma dbg_g_object_disown_live st obj :
  is_Some (objects st !! obj) → is_Some (dbg_g_object_disown obj st).
Proof.
  intros [o Ho]. destruct st as [c e n t d l ob inf q nc]. cbn in Ho.
  crunch; done.
Qed.

(** C8: whenever [dbg_g_object_disown] returns, the heap of instances
    (and with it the reference count and the floating flag of every
    instance), the records, the idle queue and the calls made to native
    primitives are what they were before, the log mutex is back at the
    depth it had and the environment is untouched; with diagnostics off
    nothing is written either.  It
    returns whenever the handle is a live instance, and on every handle
    when diagnostics are off. *)
Theorem dbg_g_object_disown_no_mutation (st : State) (obj : Z) :
  (∀ st', dbg_g_object_disown obj st = Some (tt, st') →
     objects st' = objects st ∧ infos st' = infos st ∧
     idle_queue st' = idle_queue st ∧
     native_calls st' = native_calls st ∧
     log_depth st' = log_depth st ∧ environ st' = environ st) ∧
  (is_Some (objects st !! obj) ∨ debug_disabled st →
   ∃ st', dbg_g_object_disown obj st = Some (tt, st') ∧
          objects st' !! obj = objects st !! obj ∧
          (debug_disabled st → log_events st' = log_events st)).
Proof.
  split.
  - intros st' E. apply dbg_g_object_disown_frame in E as (N & D & _ & V).
    apply native_inv in N as (? & ? & ? & ?). done.
  - intros Hl.
    assert (is_Some (dbg_g_object_disown obj st)) as [[[] st'] E].
    { destruct Hl as [Hl|Hd]; [by apply dbg_g_object_disown_live|].
      by rewrite dbg_g_object_disown_off. }
    exists st'. split; [done|]. split.
    + apply dbg_g_object_disown_frame in E as (N & _).
      apply native_inv in N as (-> & _). done.
    + intros Hd. rewrite dbg_g_object_disown_off in E by done.
      simplify_eq. apply log_events_resolve.
Qed.

End BridgeProofs.

Section DeferredProofs.
Context `{NativeSystem}.

(** *** The two callbacks *)

Lemma g_object_unref_in_main_loop_spec st obj o :
  objects st !! obj = Some o →
  ∃ st', g_object_unref_in_main_loop obj st = Some (FALSE, st') ∧
         objects st' = unref_heap obj o (objects st) ∧
         infos st' = infos st ∧
         idle_queue st' = idle_queue st ∧
         native_calls st' = native_calls st ++ [CallUnref obj] ∧
         log_depth st' = log_depth st.
Proof.
  intros Ho. destruct st as [c e n t d l ob inf q nc]. cbn in Ho.
  unfold unref_heap.
  crunch; eexists; (split; [reflexivity|]); cbn; done.
Qed.

Lemma main_loop_boxed_free_helper_spec st info r :
  info ≠ NULL →
  infos st !! info = Some r →
  ∃ st', main_loop_boxed_free_helper info st = Some (FALSE, st') ∧
         objects st' = objects st ∧
         infos st' = delete info (infos st) ∧
         idle_queue st' = idle_queue st ∧
         native_calls st' =
           native_calls st ++ [CallBoxedFree (gtype r) (boxed r);
                               CallFree info] ∧
         log_depth st' = log_depth st.
Proof.
  intros Hn%Z.eqb_neq Hr. destruct st as [c e n t d l ob inf q nc].
  cbn in Hr.
  crunch; eexists; (split; [reflexivity|]); cbn;
    rewrite <- ?app_assoc; done.
Qed.

(** *** The two requests *)

Lemma dbg_g_object_unref_spec st obj :
  ∃ st', dbg_g_object_unref obj st = Some (tt, st') ∧
         objects st' = objects st ∧ infos st' = infos st ∧
         idle_queue st' =
           idle_queue st ++ [(g_object_unref_in_main_loop_fn, obj)] ∧
         native_calls st' =
           native_calls st ++
           [CallIdleAdd g_object_unref_in_main_loop_fn obj] ∧
         log_events st' = log_events st ∧ log_depth st' = log_depth st.
Proof. eexists. split; [reflexivity|]. done. Qed.

Lemma boxed_free_helper_spec st t b :
  ∃ info st',
    boxed_free_helper t b st = Some (tt, st') ∧
    info ≠ NULL ∧ infos st !! info = None ∧ objects st !! info = None ∧
    objects st' = objects st ∧
    infos st' = <[info := mkBoxedFreeInfo t b]> (infos st) ∧
    idle_queue st' =
      idle_queue st ++ [(main_loop_boxed_free_helper_fn, info)] ∧
    native_calls st' =
      native_calls st ++
      [CallMalloc info; CallIdleAdd main_loop_boxed_free_helper_fn info] ∧
    log_events st' = log_events st ∧ log_depth st' = log_depth st.
Proof.
  pose (p := fresh ({[NULL]} ∪ dom (infos st) ∪ dom (objects st))).
  assert (Hp : p ∉ {[NULL]} ∪ dom (infos st) ∪ dom (objects st))
    by apply is_fresh.
  exists p.
  unfold boxed_free_helper, g_malloc_info, store_info, load_info, g_idle_add.
  unfold_monad. unfold_state. cbn. fold p.
  rewrite lookup_insert_eq. cbn. rewrite lookup_insert_eq. cbn.
  rewrite !insert_insert_eq.
  eexists. split; [reflexivity|]. cbn.
  repeat split; try done.
  - set_solver.
  - apply not_elem_of_dom. set_solver.
  - apply not_elem_of_dom. set_solver.
  - by rewrite <- app_assoc.
Qed.

(** *** Dispatching idle sources *)

Lemma run_main_loop_empty n st :
  idle_queue st = [] → run_main_loop n st = Some (tt, st).
Proof.
  intros Hq. destruct n as [|n]; [done|].
  cbn. unfold dispatch_idle, bind, gets. by rewrite Hq.
Qed.

Lemma dispatch_idle_unref st obj rest o :
  idle_queue st = (g_object_unref_in_main_loop_fn, obj) :: rest →
  objects st !! obj = Some o →
  ∃ st', dispatch_idle st = Some (true, st') ∧
         idle_queue st' = rest ∧
         objects st' = unref_heap obj o (objects st) ∧
         infos st' = infos st ∧
         native_calls st' = native_calls st ++ [CallUnref obj] ∧
         log_depth st' = log_depth st.
Proof.
  intros Hq Ho.
  destruct (g_object_unref_in_main_loop_spec (set_idle_queue rest st) obj o Ho)
    as (st' & E & ? & ? & ? & ? & ?).
  exists st'. split.
  - unfold dispatch_idle, bind, gets, modify. rewrite Hq. cbn. by rewrite E.
  - clear E. cbn in *. done.
Qed.

Lemma dispatch_idle_boxed st info rest r :
  idle_queue st = (main_loop_boxed_free_helper_fn, info) :: rest →
  info ≠ NULL →
  infos st !! info = Some r →
  ∃ st', dispatch_idle st = Some (true, st') ∧
         idle_queue st' = rest ∧
         objects st' = objects st ∧
         infos st' = delete info (infos st) ∧
         native_calls st' =
           native_calls st ++ [CallBoxedFree (gtype r) (boxed r);
                               CallFree info] ∧
         log_depth st' = log_depth st.
Proof.
  intros Hq Hn Hr.
  destruct (main_loop_boxed_free_helper_spec
              (set_idle_queue rest st) info r Hn Hr) as (st' & E & ? & ? & ? & ? & ?).
  exists st'. split.
  - unfold dispatch_idle, bind, gets, modify. rewrite Hq. cbn. by rewrite E.
  - clear E. cbn in *. done.
Qed.

(** After a deferred unref has run, the rest of the queue is still going
    to find what it needs. *)
Lemma queue_ready_after_unref st st' obj o rest :
  queue_ready st ((g_object_unref_in_main_loop_fn, obj) :: rest) →
  objects st !! obj = Some o →
  objects st' = unref_heap obj o (objects st) →
  infos st' = infos st →
  queue_ready st' rest.
Proof.
  intros (Hu & Hnd & Hb) Ho Eo Ei.
  change (unref_handles (_ :: rest)) with (obj :: unref_handles rest) in Hu.
  change (boxed_records (_ :: rest)) with (boxed_records rest) in Hnd, Hb.
  split; [|split].
  - intros h Hh.
    destruct (Hu h) as (o' & Ho' & Hc); [by right|].
    rewrite Eo. unfold unref_heap.
    destruct (decide (h = obj)) as [->|Hne].
    + rewrite Ho in Ho'. injection Ho' as <-.
      rewrite count_occ_cons_eq in Hc by done.
      assert (0 < count_occ Z.eq_dec (unref_handles rest) obj)%nat.
      { apply count_occ_In. by apply list_elem_of_In. }
      destruct (ref_count o <=? 1) eqn:E; [apply Z.leb_le in E; lia|].
      rewrite lookup_insert_eq. eexists. split; [done|]. cbn. lia.
    + rewrite count_occ_cons_neq in Hc by done.
      exists o'. split; [|done].
      destruct (ref_count o <=? 1).
      * by rewrite lookup_delete_ne.
      * by rewrite lookup_insert_ne.
  - done.
  - intros p Hp. rewrite Ei. by apply Hb.
Qed.

Lemma queue_ready_after_boxed st st' info rest :
  queue_ready st ((main_loop_boxed_free_helper_fn, info) :: rest) →
  objects st' = objects st →
  infos st' = delete info (infos st) →
  queue_ready st' rest ∧ info ∉ boxed_records rest.
Proof.
  intros (Hu & Hnd & Hb) Eo Ei.
  change (unref_handles (_ :: rest)) with (unref_handles rest) in Hu.
  change (boxed_records (_ :: rest)) with (info :: boxed_records rest)
    in Hnd, Hb.
  apply NoDup_cons in Hnd as [Hni Hnd].
  split; [|done]. split; [|split].
  - intros h Hh. rewrite Eo. by apply Hu.
  - done.
  - intros p Hp. destruct (Hb p) as [Hn Hl]; [by right|].
    split; [done|]. rewrite Ei, lookup_delete_ne; [done|].
    intros ->. done.
Qed.

Lemma expected_calls_delete recs info q :
  info ∉ boxed_records q →
  expected_calls (delete info recs) q = expected_calls recs q.
Proof.
  unfold expected_calls.
  induction q as [|[[] d] q IH]; intros Hni; cbn in *; [done| |].
  - by rewrite IH.
  - apply not_elem_of_cons in Hni as [Hne Hni].
    rewrite lookup_delete_ne by done. by rewrite IH.
Qed.

(** Running the loop for as many rounds as the queue is long dispatches
    every source once, in order, and leaves the queue empty. *)
Lemma run_main_loop_drains q : ∀ st n,
  idle_queue st = q →
  queue_ready st q →
  (length q ≤ n)%nat →
  ∃ st', run_main_loop n st = Some (tt, st') ∧
         idle_queue st' = [] ∧
         native_calls st' = native_calls st ++ expected_calls (infos st) q ∧
         (∀ p, p ∈ boxed_records q → infos st' !! p = None) ∧
         (∀ p, p ∉ boxed_records q → infos st' !! p = infos st !! p) ∧
         log_depth st' = log_depth st.
Proof.
  induction q as [|[f d] rest IH]; intros st n Hq Hr Hn.
  - exists st. rewrite run_main_loop_empty by done. cbn.
    rewrite app_nil_r. repeat split; try done.
    intros p Hp. by apply elem_of_nil in Hp.
  - destruct n as [|n]; [cbn in Hn; lia|]. cbn in Hn.
    cbn [run_main_loop]. unfold bind at 1.
    destruct f.
    + destruct Hr as (Hu & Hr'). destruct (Hu d) as (o & Ho & _); [by left|].
      destruct (dispatch_idle_unref st d rest o Hq Ho)
        as (st1 & -> & Q1 & O1 & I1 & C1 & D1).
      destruct (IH st1 n Q1) as (st' & -> & Q' & C' & G' & K' & D');
        [by eapply queue_ready_after_unref|lia|].
      exists st'. split; [done|]. split; [done|].
      rewrite C', C1, I1, <- app_assoc. cbn in *.
      repeat split; try done; try congruence.
      * intros p Hp. rewrite <- I1. by apply K'.
    + pose proof Hr as (_ & _ & Hb).
      destruct (Hb d) as (Hd & r & Hi); [by left|].
      destruct (dispatch_idle_boxed st d rest r Hq Hd Hi)
        as (st1 & -> & Q1 & O1 & I1 & C1 & D1).
      destruct (queue_ready_after_boxed st st1 d rest Hr O1 I1) as [Hr1 Hni].
      destruct (IH st1 n Q1 Hr1) as (st' & -> & Q' & C' & G' & K' & D');
        [lia|].
      exists st'. split; [done|]. split; [done|].
      rewrite C', C1, I1, expected_calls_delete, <- app_assoc by done.
      cbn. rewrite Hi. cbn.
      repeat split; try done; try congruence.
      * intros p [->|Hp]%elem_of_cons; [|by apply G'].
        rewrite K' by done. rewrite I1. apply lookup_delete_eq.
      * intros p [Hne Hp]%not_elem_of_cons.
        rewrite K' by done. rewrite I1. by apply lookup_delete_ne.
Qed.

End DeferredProofs.

Section ExactlyOnce.
Context `{NativeSystem}.

Lemma unref_calls_app st calls :
  omap (λ c, if c is CallUnref obj then Some obj else None)
       (native_calls st ++ calls) =
  unref_calls st ++
  omap (λ c, if c is CallUnref obj then Some obj else None) calls.
Proof. apply omap_app. Qed.

Lemma boxed_free_calls_app st calls :
  omap (λ c, if c is CallBoxedFree t b then Some (t, b) else None)
       (native_calls st ++ calls) =
  boxed_free_calls st ++
  omap (λ c, if c is CallBoxedFree t b then Some (t, b) else None) calls.
Proof. apply omap_app. Qed.

Lemma unref_heap_lookup obj o objs :
  ref_count <$> unref_heap obj o objs !! obj =
  if ref_count o <=? 1 then None else Some (ref_count o - 1).
Proof.
  unfold unref_heap. destruct (ref_count o <=? 1).
  - by rewrite lookup_delete_eq.
  - by rewrite lookup_insert_eq.
Qed.

(** *** Deferred unrefs *)

Lemma submit_unrefs hs : ∀ st,
  ∃ st1, submit_all dbg_g_object_unref hs st = Some (tt, st1) ∧
         objects st1 = objects st ∧ infos st1 = infos st ∧
         idle_queue st1 =
           idle_queue st ++ map (pair g_object_unref_in_main_loop_fn) hs ∧
         native_calls st1 =
           native_calls st ++
           map (CallIdleAdd g_object_unref_in_main_loop_fn) hs.
Proof.
  induction hs as [|h hs IH]; intros st.
  - exists st. cbn. by rewrite !app_nil_r.
  - destruct (dbg_g_object_unref_spec st h) as (sa & E & O & I & Q & C & _).
    destruct (IH sa) as (st1 & E1 & O1 & I1 & Q1 & C1).
    exists st1. cbn [submit_all]. unfold bind. rewrite E.
    split; [done|]. rewrite O1, I1, Q1, C1, O, I, Q, C, <- !app_assoc. done.
Qed.

Lemma unref_queue_shape hs recs :
  unref_handles (map (pair g_object_unref_in_main_loop_fn) hs) = hs ∧
  boxed_records (map (pair g_object_unref_in_main_loop_fn) hs) = [] ∧
  expected_calls recs (map (pair g_object_unref_in_main_loop_fn) hs) =
    map CallUnref hs.
Proof.
  unfold expected_calls.
  induction hs as [|h hs (E1 & E2 & E3)]; [done|]. cbn.
  change (omap _ (map _ hs)) with
    (unref_handles (map (pair g_object_unref_in_main_loop_fn) hs)) at 1.
  change (omap _ (map _ hs)) with
    (boxed_records (map (pair g_object_unref_in_main_loop_fn) hs)).
  by rewrite E1, E2, E3.
Qed.

Lemma unref_calls_of_unrefs hs :
  omap (λ c, if c is CallUnref obj then Some obj else None)
       (map CallUnref hs) = hs.
Proof. induction hs as [|h hs IH]; [done|]. cbn. by rewrite IH. Qed.

Lemma unref_calls_of_idle_adds f hs :
  omap (λ c, if c is CallUnref obj then Some obj else None)
       (map (CallIdleAdd f) hs) = [].
Proof. induction hs as [|h hs IH]; [done|]. cbn. by rewrite IH. Qed.

(** C1: a request to release a reference releases nothing when it is
    made: [dbg_g_object_unref] returns with the heap of instances as it
    was and with no call of [g_object_unref], having put one source for
    the handle at the end of the idle queue.  The callback of that
    source, run on a live instance, calls [g_object_unref] on the handle
    once, which takes one reference from it (the instance is finalized
    when that was the last one), and returns [FALSE].  And so a loop that
    starts idle and is given requests for instances that hold a reference
    for each of them calls [g_object_unref] once per request, in the order
    of the requests, and ends with an empty queue: no source is run
    twice. *)
Theorem deferred_unref_exactly_once (st : State) (hs : list Z) (n : nat) :
  (∃ st1,
     submit_all dbg_g_object_unref hs st = Some (tt, st1) ∧
     objects st1 = objects st ∧
     unref_calls st1 = unref_calls st ∧
     idle_queue st1 =
       idle_queue st ++ map (pair g_object_unref_in_main_loop_fn) hs ∧
     (idle_queue st = [] → holds_references st hs → (length hs ≤ n)%nat →
      ∃ st2, run_main_loop n st1 = Some (tt, st2) ∧
             idle_queue st2 = [] ∧
             unref_calls st2 = unref_calls st ++ hs)) ∧
  (∀ obj o, objects st !! obj = Some o →
     ∃ st', g_object_unref_in_main_loop obj st = Some (FALSE, st') ∧
            unref_calls st' = unref_calls st ++ [obj] ∧
            objects st' = unref_heap obj o (objects st) ∧
            ref_count <$> objects st' !! obj =
              (if ref_count o <=? 1 then None else Some (ref_count o - 1)) ∧
            (∀ other, other ≠ obj →
               objects st' !! other = objects st !! other) ∧
            idle_queue st' = idle_queue st).
Proof.
  split.
  - destruct (submit_unrefs hs st) as (st1 & E & O & I & Q & C).
    exists st1. split; [done|]. split; [done|].
    assert (U : unref_calls st1 = unref_calls st).
    { unfold unref_calls at 1. rewrite C, unref_calls_app.
      by rewrite unref_calls_of_idle_adds, app_nil_r. }
    split; [done|]. split; [done|].
    intros Hq Href Hn. rewrite Hq in Q. cbn in Q.
    destruct (unref_queue_shape hs (infos st1)) as (S1 & S2 & S3).
    destruct (run_main_loop_drains _ st1 n Q) as (st2 & E2 & Q2 & C2 & _).
    + split; [|split].
      * rewrite S1, O. done.
      * rewrite S2. constructor.
      * rewrite S2. intros p Hp. by apply elem_of_nil in Hp.
    + by rewrite length_map.
    + exists st2. split; [done|]. split; [done|].
      unfold unref_calls at 1. rewrite C2, S3, unref_calls_app.
      by rewrite U, unref_calls_of_unrefs.
  - intros obj o Ho.
    destruct (g_object_unref_in_main_loop_spec st obj o Ho)
      as (st' & E & O & I & Q & C & D).
    exists st'. split; [done|]. split; [|split; [done|split; [|split]]].
    + unfold unref_calls at 1. by rewrite C, unref_calls_app.
    + rewrite O. apply unref_heap_lookup.
    + intros other Hne. rewrite O. unfold unref_heap.
      destruct (ref_count o <=? 1).
      * by rewrite lookup_delete_ne.
      * by rewrite lookup_insert_ne.
    + done.
Qed.

(** *** Deferred boxed frees *)

Lemma submit_boxed reqs : ∀ st,
  ∃ ps st1,
    submit_all boxed_request reqs st = Some (tt, st1) ∧
    NoDup ps ∧
    Forall (λ p, p ≠ NULL ∧ infos st !! p = None) ps ∧
    Forall2 (λ p r, infos st1 !! p = Some (record_of r)) ps reqs ∧
    (∀ p, p ∉ ps → infos st1 !! p = infos st !! p) ∧
    objects st1 = objects st ∧
    idle_queue st1 =
      idle_queue st ++ map (pair main_loop_boxed_free_helper_fn) ps ∧
    native_calls st1 =
      native_calls st ++
      flat_map (λ p, [CallMalloc p;
                      CallIdleAdd main_loop_boxed_free_helper_fn p]) ps.
Proof.
  induction reqs as [|[t b] reqs IH]; intros st.
  - exists [], st. cbn. rewrite !app_nil_r.
    repeat split; try done; constructor.
  - destruct (boxed_free_helper_spec st t b)
      as (p & sa & E & Hp & Hf & _ & O & I & Q & C & _).
    destruct (IH sa) as (ps & st1 & E1 & Hnd & Hfr & Hrec & Hoth & O1 & Q1 & C1).
    assert (Hni : p ∉ ps).
    { intros Hin. eapply Forall_forall in Hfr as [_ Hnone]; [|done].
      by rewrite I, lookup_insert_eq in Hnone. }
    exists (p :: ps), st1. cbn [submit_all]. unfold bind, boxed_request at 1.
    cbn [fst snd]. rewrite E. split; [done|].
    split; [by constructor|]. split; [|split; [|split]].
    + constructor; [done|].
      eapply Forall_impl; [done|]. cbn. intros p' [Hn' Hnone]. split; [done|].
      rewrite I in Hnone. by apply lookup_insert_None in Hnone as [? _].
    + constructor; [|done].
      rewrite Hoth by done. by rewrite I, lookup_insert_eq.
    + intros p' [Hne Hni']%not_elem_of_cons.
      rewrite Hoth by done. by rewrite I, lookup_insert_ne.
    + rewrite O1, Q1, C1, O, Q, C, <- !app_assoc. done.
Qed.

Lemma boxed_queue_shape ps reqs recs :
  Forall2 (λ p r, recs !! p = Some (record_of r)) ps reqs →
  unref_handles (map (pair main_loop_boxed_free_helper_fn) ps) = [] ∧
  boxed_records (map (pair main_loop_boxed_free_helper_fn) ps) = ps ∧
  omap (λ c, if c is CallBoxedFree t b then Some (t, b) else None)
       (expected_calls recs
          (map (pair main_loop_boxed_free_helper_fn) ps)) = reqs.
Proof.
  unfold expected_calls.
  induction 1 as [|p [t b] ps reqs Hp _ (E1 & E2 & E3)]; [done|]. cbn.
  change (omap _ (map _ ps)) with
    (unref_handles (map (pair main_loop_boxed_free_helper_fn) ps)) at 1.
  change (omap _ (map _ ps)) with
    (boxed_records (map (pair main_loop_boxed_free_helper_fn) ps)).
  rewrite E1, E2, Hp. cbn. by rewrite E3.
Qed.

Lemma boxed_free_calls_of_submissions ps :
  omap (λ c, if c is CallBoxedFree t b then Some (t, b) else None)
       (flat_map (λ p, [CallMalloc p;
                        CallIdleAdd main_loop_boxed_free_helper_fn p]) ps)
  = [].
Proof. induction ps as [|p ps IH]; [done|]. cbn. by rewrite IH. Qed.

(** C2: a request to free a boxed value of type [t] at [b] frees nothing
    when it is made: [boxed_free_helper] returns having made a record
    with a new address that holds exactly [t] and [b], and having put one
    source for that record at the end of the idle queue.  The callback of
    the source calls [g_boxed_free] once, on the type and the value of
    its record, then [g_free] on the record, which is gone afterwards,
    and returns [FALSE].  And so a loop that starts idle and is given
    requests in a row calls [g_boxed_free] once per request, on what was
    asked for and in the order of the requests, and ends with an empty
    queue and with all the records it made released. *)
Theorem deferred_boxed_free_exactly_once
    (st : State) (reqs : list (Z * Z)) (n : nat) :
  (∃ ps st1,
     submit_all boxed_request reqs st = Some (tt, st1) ∧
     objects st1 = objects st ∧
     boxed_free_calls st1 = boxed_free_calls st ∧
     idle_queue st1 =
       idle_queue st ++ map (pair main_loop_boxed_free_helper_fn) ps ∧
     NoDup ps ∧
     Forall (λ p, p ≠ NULL ∧ infos st !! p = None) ps ∧
     Forall2 (λ p r, infos st1 !! p = Some (mkBoxedFreeInfo r.1 r.2))
             ps reqs ∧
     (idle_queue st = [] → (length reqs ≤ n)%nat →
      ∃ st2, run_main_loop n st1 = Some (tt, st2) ∧
             idle_queue st2 = [] ∧
             boxed_free_calls st2 = boxed_free_calls st ++ reqs ∧
             infos st2 = infos st)) ∧
  (∀ info t b, info ≠ NULL →
     infos st !! info = Some (mkBoxedFreeInfo t b) →
     ∃ st', main_loop_boxed_free_helper info st = Some (FALSE, st') ∧
            native_calls st' =
              native_calls st ++ [CallBoxedFree t b; CallFree info] ∧
            infos st' = delete info (infos st) ∧
            objects st' = objects st ∧
            idle_queue st' = idle_queue st).
Proof.
  split.
  - destruct (submit_boxed reqs st)
      as (ps & st1 & E & Hnd & Hfr & Hrec & Hoth & O & Q & C).
    exists ps, st1. split; [done|]. split; [done|].
    assert (B : boxed_free_calls st1 = boxed_free_calls st).
    { unfold boxed_free_calls at 1. rewrite C, boxed_free_calls_app.
      by rewrite boxed_free_calls_of_submissions, app_nil_r. }
    do 5 (split; [done|]).
    intros Hq Hn. rewrite Hq in Q. cbn in Q.
    destruct (boxed_queue_shape ps reqs (infos st1) Hrec) as (S1 & S2 & S3).
    destruct (run_main_loop_drains _ st1 n Q)
      as (st2 & E2 & Q2 & C2 & G2 & K2 & _).
    + split; [|split].
      * rewrite S1. intros h Hh. by apply elem_of_nil in Hh.
      * by rewrite S2.
      * rewrite S2. intros p Hp.
        destruct (proj1 (Forall_forall _ _) Hfr p Hp) as [Hp0 _].
        split; [done|].
        apply list_elem_of_lookup_1 in Hp as [i Hi].
        destruct (Forall2_lookup_l _ _ _ _ _ Hrec Hi) as (r & _ & Hr).
        by rewrite Hr.
    + rewrite length_map. by rewrite (Forall2_length _ _ _ Hrec).
    + exists st2. split; [done|]. split; [done|]. split.
      * unfold boxed_free_calls at 1.
        by rewrite C2, boxed_free_calls_app, S3, B.
      * apply map_eq. intros p. rewrite S2 in G2, K2.
        destruct (decide (p ∈ ps)) as [Hin|Hni].
        -- rewrite G2 by done.
           by eapply Forall_forall in Hfr as [_ ->].
        -- rewrite K2 by done. by apply Hoth.
  - intros info t b Hn Hi.
    destruct (main_loop_boxed_free_helper_spec st info _ Hn Hi)
      as (st' & E & O & I & Q & C & D).
    exists st'. done.
Qed.

End ExactlyOnce.

Section Construction.
Context `{NativeSystem}.

(** The loop of the older branch copies the first [n] names and values. *)
Lemma copy_params_eq n : ∀ i names values st,
  (i + n ≤ length names)%nat → (i + n ≤ length values)%nat →
  copy_params i n names values st =
    Some (zip (take n (drop i names)) (take n (drop i values)), st).
Proof.
  induction n as [|n IH]; intros i names values st Hn Hv; [done|].
  cbn [copy_params].
  destruct (lookup_lt_is_Some_2 values i) as [v Ev]; [lia|].
  destruct (lookup_lt_is_Some_2 names i) as [nm En]; [lia|].
  rewrite Ev, En. unfold bind. rewrite IH by lia.
  rewrite (drop_S _ _ _ Ev), (drop_S _ _ _ En). done.
Qed.

(** Both branches hand the same properties to the constructor. *)
Lemma construct_instance_eq t n names values st p objs :
  (n ≤ length names)%nat → (n ≤ length values)%nat →
  construct t (zip (take n names) (take n values)) (objects st) = (p, objs) →
  construct_instance t n names values st =
    Some (p, record_call
               (CallObjectNew t (zip (take n names) (take n values)) p)
               (set_objects objs st)).
Proof.
  intros Hn Hv Hc. unfold construct_instance.
  assert (Ln : (n <=? length names)%nat = true) by by apply Nat.leb_le.
  assert (Lv : (n <=? length values)%nat = true) by by apply Nat.leb_le.
  destruct GLIB_CHECK_VERSION_2_54_0.
  - unfold g_object_new_with_properties, load_array, bind, gets, modify, ret.
    rewrite Ln. cbn. rewrite Lv. cbn. by rewrite Hc.
  - unfold bind at 1. rewrite copy_params_eq by (cbn; lia).
    rewrite !drop_0.
    unfold g_object_newv, load_array, bind, gets, modify, ret.
    assert (Lz : length (zip (take n names) (take n values)) = n).
    { rewrite length_zip, !length_take. lia. }
    rewrite Lz, Nat.leb_refl. cbn.
    rewrite (take_ge (zip _ _) n) by lia. by rewrite Hc.
Qed.

Lemma dbg_g_object_new_unfold t n names values :
  dbg_g_object_new t n names values =
  (do dbg <- print_debug_info;
   (when truthy dbg then
      (do self <- g_thread_self;
       lock_log;;
       dbg_log "Creating a new GObject of type %s [thread: %p]\n"
               [ArgStr (g_type_name t); ArgPtr self]));;
   do result <- construct_instance t n names values;
   do iu <- G_IS_INITIALLY_UNOWNED result;
   (when truthy iu then g_object_ref_sink result);;
   do dbg <- print_debug_info;
   (when truthy dbg then
      (dbg_log "\tdone, got a pointer at %p\n" [ArgPtr result];;
       unlock_log));;
   ret result).
Proof. reflexivity. Qed.

Lemma dbg_g_object_new_spec st t n names values p objs o :
  (n ≤ length names)%nat → (n ≤ length values)%nat →
  construct t (zip (take n names) (take n values)) (objects st) = (p, objs) →
  p ≠ NULL →
  objs !! p = Some o →
  ∃ st', dbg_g_object_new t n names values st = Some (p, st') ∧
         objects st' =
           (if initially_unowned o then <[p := ref_sink o]> objs else objs) ∧
         native_calls st' =
           native_calls st ++
           CallObjectNew t (zip (take n names) (take n values)) p ::
           (if initially_unowned o then [CallRefSink p] else []) ∧
         infos st' = infos st ∧ idle_queue st' = idle_queue st ∧
         log_depth st' = log_depth st.
Proof.
  intros Hn Hv Hc Hp%Z.eqb_neq Ho.
  rewrite dbg_g_object_new_unfold.
  destruct st as [c e k tid d l ob inf q nc]. cbn in Hc.
  unfold initially_unowned, type_matches.
  unfold_ops; unfold_monad; unfold_state; cbn.
  repeat (first [ erewrite construct_instance_eq by (cbn; done)
                | break_match ];
          unfold_state; cbn).
  all: eexists; (split; [reflexivity|]); cbn; rewrite <- ?app_assoc; done.
Qed.

(** [g_object_ref_sink] gives its caller one counted reference, whether
    the instance was floating or not, and leaves the instance sunk. *)
Lemma ref_sink_counted o :
  floating (ref_sink o) = false ∧
  counted_refs (ref_sink o) = counted_refs o + 1 ∧
  ref_count (ref_sink o) =
    (if floating o then ref_count o else ref_count o + 1) ∧
  g_type (ref_sink o) = g_type o.
Proof. unfold ref_sink, counted_refs. destruct (floating o); cbn; lia. Qed.

(** C3: take a construction that succeeds: the constructor returns a
    handle that is not [NULL] to an instance on the heap, and, as in
    GObject, that instance is floating only if its type is initially
    unowned.  Then [dbg_g_object_new] returns that handle, and the
    instance is not floating.  If its type is initially unowned, the
    function has called [g_object_ref_sink] on it, once, which gave the
    caller one counted reference: the floating reference turned into a
    counted one with the count as it was, or, for an instance that was
    not floating, one reference more.  Otherwise no reference-counting
    primitive was called and the instance is as the constructor left it:
    its initial reference is the caller's.  No other instance is touched
    in either case. *)
Theorem dbg_g_object_new_owned
    (st : State) (t : Z) (n : nat) (names : list string)
    (values : list GValue) (p : Z) (objs : gmap Z GObject) (o : GObject) :
  (n ≤ length names)%nat → (n ≤ length values)%nat →
  construct t (zip (take n names) (take n values)) (objects st) = (p, objs) →
  p ≠ NULL →
  objs !! p = Some o →
  (floating o = true → initially_unowned o = true) →
  ∃ st' o',
    dbg_g_object_new t n names values st = Some (p, st') ∧
    objects st' !! p = Some o' ∧
    floating o' = false ∧
    (initially_unowned o = true →
       o' = ref_sink o ∧
       counted_refs o' = counted_refs o + 1 ∧
       ref_count o' = (if floating o then ref_count o else ref_count o + 1) ∧
       native_calls st' =
         native_calls st ++
         [CallObjectNew t (zip (take n names) (take n values)) p;
          CallRefSink p]) ∧
    (initially_unowned o = false →
       o' = o ∧ objects st' = objs ∧
       native_calls st' =
         native_calls st ++
         [CallObjectNew t (zip (take n names) (take n values)) p]) ∧
    (∀ other, other ≠ p → objects st' !! other = objs !! other).
Proof.
  intros Hn Hv Hc Hp Ho Hfl.
  destruct (dbg_g_object_new_spec st t n names values p objs o)
    as (st' & E & O & C & _); try done.
  destruct (ref_sink_counted o) as (F1 & F2 & F3 & _).
  destruct (initially_unowned o) eqn:Eiu.
  - exists st', (ref_sink o). rewrite O, lookup_insert_eq.
    repeat split; try done.
    intros other Hne. by rewrite lookup_insert_ne.
  - exists st', o. rewrite O. repeat split; try done.
    destruct (floating o); [by specialize (Hfl eq_refl)|done].
Qed.

End Construction.

Section Noninterference.
Context `{NativeSystem}.

Lemma copy_params_fault n : ∀ i names values st,
  (0 < n)%nat →
  (length names < i + n)%nat ∨ (length values < i + n)%nat →
  copy_params i n names values st = None.
Proof.
  induction n as [|n IH]; intros i names values st Hpos Hb; [lia|].
  cbn [copy_params].
  destruct (values !! i) as [v|] eqn:Ev; [|done].
  destruct (names !! i) as [nm|] eqn:En; [|done].
  apply lookup_lt_Some in Ev, En.
  unfold bind. rewrite IH; [done|lia|lia].
Qed.

(** The construction step sees the heap of instances and nothing else of
    the state. *)
Lemma construct_instance_frame t n names values objs :
  ∃ r, ∀ st, objects st = objs →
    construct_instance t n names values st =
      match r with
      | Some (p, props, objs') =>
          Some (p, record_call (CallObjectNew t props p)
                               (set_objects objs' st))
      | None => None
      end.
Proof.
  destruct (decide ((n ≤ length names)%nat ∧ (n ≤ length values)%nat))
    as [[Hn Hv]|Hb].
  - destruct (construct t (zip (take n names) (take n values)) objs)
      as [p objs'] eqn:Hc.
    exists (Some (p, zip (take n names) (take n values), objs')).
    intros st <-. by apply construct_instance_eq.
  - exists None. intros st _. unfold construct_instance.
    destruct GLIB_CHECK_VERSION_2_54_0.
    + unfold g_object_new_with_properties, load_array, bind, fault.
      destruct (n <=? length names)%nat eqn:Ln; [|done].
      destruct (n <=? length values)%nat eqn:Lv; [|done].
      apply Nat.leb_le in Ln, Lv. tauto.
    + unfold bind. rewrite copy_params_fault; [done|lia|cbn; lia].
Qed.

Lemma boxed_free_helper_eq st t b :
  let p := fresh ({[NULL]} ∪ dom (infos st) ∪ dom (objects st)) in
  boxed_free_helper t b st =
    Some (tt,
          record_call (CallIdleAdd main_loop_boxed_free_helper_fn p)
            (set_idle_queue
               (idle_queue st ++ [(main_loop_boxed_free_helper_fn, p)])
               (record_call (CallMalloc p)
                  (set_infos (<[p := mkBoxedFreeInfo t b]> (infos st)) st)))).
Proof.
  intros p.
  unfold boxed_free_helper, g_malloc_info, store_info, load_info, g_idle_add.
  unfold_monad. unfold_state. cbn. fold p.
  rewrite lookup_insert_eq. cbn. rewrite lookup_insert_eq. cbn.
  by rewrite !insert_insert_eq.
Qed.

(** On two states with the same native part, a call whose handle is live
    faults on both or returns on both, with the same value and the same
    native part. *)
Lemma run_call_observe c st1 st2 :
  native st1 = native st2 →
  handle_live c st1 →
  observe (run_call c st1) = observe (run_call c st2).
Proof.
  destruct st1 as [c1 e1 k1 t1 d1 l1 ob inf q nc].
  destruct st2 as [c2 e2 k2 t2 d2 l2 ob2 inf2 q2 nc2].
  unfold native. cbn. intros [= <- <- <- <-] Hl.
  destruct c as [i ty|t n names values|obj|obj|t b|info|obj|ptr];
    unfold run_call, observe, native.
  - crunch; done.
  - rewrite dbg_g_object_new_unfold.
    destruct (construct_instance_frame t n names values ob) as [r Hr].
    unfold_ops; unfold_monad; unfold_state; cbn.
    repeat (first [ rewrite Hr by done | break_match ]; unfold_state; cbn).
    all: done.
  - done.
  - crunch; done.
  - unfold bind. rewrite !boxed_free_helper_eq. done.
  - crunch; done.
  - destruct Hl as [o Ho]. cbn in Ho. crunch; done.
  - crunch; done.
Qed.

(** A call that returns leaves the environment and the thread as they
    were and the log mutex at the depth it had. *)
Lemma run_call_frame c st v s :
  run_call c st = Some (v, s) →
  environ s = environ st ∧ thread_self s = thread_self st ∧
  log_depth s = log_depth st.
Proof.
  destruct st as [c1 e1 k1 t1 d1 l1 ob inf q nc].
  destruct c as [i ty|t n names values|obj|obj|t b|info|obj|ptr];
    unfold run_call.
  - crunch; intros [= <- <-]; done.
  - rewrite dbg_g_object_new_unfold.
    destruct (construct_instance_frame t n names values ob) as [r Hr].
    unfold_ops; unfold_monad; unfold_state; cbn.
    repeat (first [ rewrite Hr by done | break_match ]; unfold_state; cbn).
    all: intros [= <- <-]; done.
  - intros [= <- <-]. done.
  - crunch; intros [= <- <-]; done.
  - unfold bind. rewrite boxed_free_helper_eq. intros [= <- <-]. done.
  - crunch; intros [= <- <-]; done.
  - crunch; intros [= <- <-]; done.
  - crunch; intros [= <- <-]; done.
Qed.

(** C10, with the condition the code needs: run any of the exported
    operations or of the two callbacks on two states that agree on their
    native part (instances, records, idle queue, calls made) and differ
    at will in the debug flag, the environment and the log.  If both runs
    return, they return the same value and leave the same native part.
    If the handle given to [dbg_g_object_disown] is a live instance, the
    two runs also agree on whether they return at all; this is the one
    call in which only the diagnostics dereference the handle, and on a
    handle that is no instance the flag decides whether it returns.  And
    a run that returns has not
    changed the environment, and has left the log mutex as it found it:
    what the flag changes is the log. *)
Theorem debug_toggle_noninterference (c : ApiCall) (st1 st2 : State) :
  native st1 = native st2 →
  (∀ v1 s1 v2 s2,
     run_call c st1 = Some (v1, s1) → run_call c st2 = Some (v2, s2) →
     v1 = v2 ∧ native s1 = native s2) ∧
  (handle_live c st1 →
   observe (run_call c st1) = observe (run_call c st2)) ∧
  (∀ v s, run_call c st1 = Some (v, s) →
     environ s = environ st1 ∧ log_depth s = log_depth st1).
Proof.
  intros Hnat. split; [|split].
  - intros v1 s1 v2 s2 E1 E2.
    assert (Hc : (∃ obj, c = Call_dbg_g_object_disown obj) ∨
                 ∀ obj, c ≠ Call_dbg_g_object_disown obj).
    { destruct c; try (right; done). left. by eexists. }
    destruct Hc as [[obj ->]|Hother].
    + cbn in E1, E2. unfold bind, ret in E1, E2.
      destruct (dbg_g_object_disown obj st1) as [[[] a1]|] eqn:D1; [|done].
      destruct (dbg_g_object_disown obj st2) as [[[] a2]|] eqn:D2; [|done].
      apply dbg_g_object_disown_frame in D1 as (N1 & _).
      apply dbg_g_object_disown_frame in D2 as (N2 & _).
      injection E1 as <- <-. injection E2 as <- <-.
      split; [done|]. by rewrite N1, N2.
    + assert (Hl : handle_live c st1).
      { destruct c; try exact I. by destruct (Hother obj). }
      pose proof (run_call_observe c st1 st2 Hnat Hl) as Ho.
      rewrite E1, E2 in Ho. unfold observe in Ho.
      injection Ho as Ev Eo Ei Eq Ec. unfold native.
      by rewrite Ev, Eo, Ei, Eq, Ec.
  - by apply run_call_observe.
  - intros v s E. apply run_call_frame in E as (? & ? & ?). done.
Qed.

End Noninterference.

(** ** The log under several threads *)

Section LogDiscipline.
Context `{NativeSystem}.

Ltac close_record :=
  intros [= <- <-]; cbn; rewrite <- ?app_assoc;
  first [ exists []; split; [by rewrite app_nil_r|]
        | eexists; split; [reflexivity|] ];
  repeat split; try done; vm_compute; lia.

(** What a call that returns has added to the log is bracketed by the
    mutex and is one record at most. *)
Lemma run_log_call_bracketed c st v s :
  run_log_call c st = Some (v, s) →
  ∃ evs, log_events s = log_events st ++ evs ∧
         bracketed evs ∧
         (length (records evs) ≤ 1)%nat ∧
         log_depth s = log_depth st.
Proof.
  destruct st as [c1 e1 k1 t1 d1 l1 ob inf q nc].
  destruct c as [[i ty|t n names values|obj|obj|t b|info|obj|ptr]|msg len];
    unfold run_log_call, run_call, bracketed.
  - crunch; close_record.
  - rewrite dbg_g_object_new_unfold.
    destruct (construct_instance_frame t n names values ob) as [r Hr].
    unfold_ops; unfold_monad; unfold_state; cbn.
    repeat (first [ rewrite Hr by done | break_match ]; unfold_state; cbn).
    all: close_record.
  - close_record.
  - crunch; close_record.
  - unfold bind. rewrite boxed_free_helper_eq. close_record.
  - crunch; close_record.
  - crunch; close_record.
  - crunch; close_record.
  - crunch; close_record.
Qed.

End LogDiscipline.

Lemma locked_run_app evs1 : ∀ evs2 d d1,
  locked_run d evs1 = Some d1 →
  locked_run d (evs1 ++ evs2) = locked_run d1 evs2.
Proof.
  induction evs1 as [|[| |p] evs1 IH]; intros evs2 d d1 E; cbn in *.
  - by injection E as ->.
  - by apply IH.
  - destruct d; [done|]. by apply IH.
  - destruct d; [done|]. by apply IH.
Qed.

(** The events of calls made one after the other are bracketed. *)
Lemma bracketed_concat (calls : list (list LogEvent)) :
  Forall bracketed calls → bracketed (concat calls).
Proof.
  induction 1 as [|evs calls Hb _ IH]; [done|].
  unfold bracketed in *. cbn. by rewrite (locked_run_app _ _ _ _ Hb).
Qed.

Lemma record_state_snoc evs e :
  record_state (evs ++ [e]) = record_step (record_state evs) e.
Proof. unfold record_state. by rewrite fold_left_app. Qed.

Lemma lines_snoc order t cur :
  lines (order ++ [(t, cur)]) = lines order ++ map (pair t) cur.
Proof. unfold lines. rewrite flat_map_app. cbn. by rewrite app_nil_r. Qed.

Lemma records_of_thread_snoc t u order cur :
  records_of_thread u (order ++ [(t, cur)]) =
  if decide (t = u) then records_of_thread u order ++ [cur]
  else records_of_thread u order.
Proof.
  unfold records_of_thread. rewrite filter_app, fmap_app.
  destruct (decide (t = u)) as [->|Hne].
  - by rewrite filter_cons_True.
  - rewrite filter_cons_False by done. cbn. by rewrite app_nil_r.
Qed.

(** *** The invariant of the scheduler *)

Lemma world_inv_start progs :
  map_Forall (λ _, bracketed) progs → world_inv progs (start progs) [].
Proof.
  intros Hb. unfold world_inv, start. cbn.
  split; [done|]. split; [done|]. split; [|split; [|done]].
  - intros t prog Ht. exists [], prog, O, [], [].
    rewrite lookup_fmap, Ht. cbn. repeat split; try done.
    by apply (map_Forall_lookup_1 _ _ _ _ Hb Ht).
  - intros t Hs. done.
Qed.

(** Thread [t], which may take the mutex only from nobody or from
    itself, makes event [e]: the invariant goes over to the new world as
    soon as the new record state of [t] fits the new mutex and the new
    output. *)
Lemma advance_inv progs w order t e rest prog done d closed cur
    owner' count' out' order' d' closed' cur' :
  world_inv progs w order →
  progs !! t = Some prog →
  executed w !! t = Some done →
  pending w !! t = Some (e :: rest) →
  prog = done ++ e :: rest →
  record_state done = (d, closed, cur) →
  record_step (d, closed, cur) e = (d', closed', cur') →
  mutex_owner w = None ∨ mutex_owner w = Some t →
  owner' = None ∨ owner' = Some t →
  (owner' = None → count' = O) →
  (owner' = Some t → (0 < count')%nat) →
  locked_run d' rest = Some O →
  d' = (if decide (owner' = Some t) then count' else O) →
  (d' = O → cur' = []) →
  records_of_thread t order' = closed' →
  (∀ u, u ≠ t → records_of_thread u order' = records_of_thread u order) →
  out' = lines order' ++
         (if owner' is Some _ then map (pair t) cur' else []) →
  world_inv progs (advance t e rest owner' count' out' w) order'.
Proof.
  intros (I1 & I2 & I3 & I4 & I5) Hprog Hex Hpe Hsplit Hrs Hstep
    Hown Hown' Hc0 Hc1 Hrun Hd' Hcur' Hrec Hoth Hout.
  unfold world_inv, advance. cbn.
  split; [done|]. split; [|split; [|split]].
  - intros u Hu. destruct Hown' as [Hn|Hs]; [congruence|].
    rewrite Hs in Hu. injection Hu as <-. split; [by apply Hc1|done].
  - intros u progu Hu. destruct (decide (u = t)) as [->|Hne].
    + rewrite !lookup_insert_eq, Hex. cbn.
      exists (done ++ [e]), rest, d', closed', cur'.
      rewrite record_state_snoc, Hrs, Hstep, <- app_assoc.
      repeat split; try done.
      rewrite Hprog in Hu. injection Hu as <-. by rewrite Hsplit.
    + rewrite !lookup_insert_ne by done.
      destruct (I3 u progu Hu)
        as (du & ru & dd & cl & cu & E1 & E2 & E3 & E4 & E5 & E6 & E7 & E8).
      exists du, ru, dd, cl, cu. repeat split; try done.
      * rewrite E6.
        destruct (decide (mutex_owner w = Some u)) as [Ho|_];
          [destruct Hown; congruence|].
        destruct (decide (owner' = Some u)) as [Ho|_];
          [destruct Hown'; congruence|done].
      * by rewrite Hoth.
  - intros u Hs. apply I4. destruct (decide (u = t)) as [->|Hne].
    + by rewrite Hpe.
    + by rewrite lookup_insert_ne in Hs.
  - rewrite Hout. destruct Hown' as [->| ->]; [done|].
    rewrite lookup_insert_eq, Hex. cbn [default]. unfold id.
    by rewrite record_state_snoc, Hrs, Hstep.
Qed.

Lemma thread_step_inv progs w order t :
  world_inv progs w order →
  ∃ order', world_inv progs (thread_step t w) order'.
Proof.
  intros Hinv. unfold thread_step.
  destruct (pending w !! t) as [[|e rest]|] eqn:Hpe; try by exists order.
  pose proof Hinv as (I1 & I2 & I3 & I4 & I5).
  destruct (I4 t) as [prog Hprog]; [by rewrite Hpe|].
  destruct (I3 t prog Hprog)
    as (done & rest0 & d & closed & cur &
        Hex & Hpe0 & Hsplit & Hrs & Hrun & Hd & Hcur & Hrec).
  rewrite Hpe in Hpe0. injection Hpe0 as <-.
  assert (Hcurrent : mutex_owner w = Some t →
            output w = lines order ++ map (pair t) cur).
  { intros Ho. rewrite I5, Ho, Hex. cbn [default]. unfold id.
    by rewrite Hrs. }
  destruct e as [| |p]; cbn in Hrun.
  - (* lock *)
    destruct (mutex_owner w) as [u|] eqn:Ho.
    + destruct (decide (u = t)) as [->|Hne]; [|by exists order].
      rewrite decide_True in Hd by done.
      exists order.
      eapply (advance_inv _ _ _ _ _ _ _ _ _ _ _ _ _ _ _ (S d) closed cur);
        try done; try (by right).
      * lia.
      * rewrite decide_True by done. by rewrite Hd.
      * by apply Hcurrent.
    + rewrite decide_False in Hd by done. subst d.
      exists order.
      eapply (advance_inv _ _ _ _ _ _ _ _ _ _ _ _ _ _ _ 1%nat closed cur);
        try done; try (by right); try (by left).
      * by rewrite decide_True.
      * rewrite I5, Hcur by done. done.
  - (* unlock *)
    destruct d as [|d0]; [done|].
    destruct (decide (mutex_owner w = Some t)) as [Ho|_]; [|done].
    rewrite Ho. rewrite decide_True by done. rewrite <- Hd.
    destruct d0 as [|c].
    + exists (order ++ [(t, cur)]).
      eapply (advance_inv _ _ _ _ _ _ _ _ _ _ _ _ _ _ _ O (closed ++ [cur]) []);
        try done; try (by right); try (by left).
      * rewrite records_of_thread_snoc, decide_True by done. by rewrite Hrec.
      * intros u Hne. rewrite records_of_thread_snoc.
        by rewrite decide_False.
      * rewrite lines_snoc, app_nil_r. by apply Hcurrent.
    + exists order.
      eapply (advance_inv _ _ _ _ _ _ _ _ _ _ _ _ _ _ _ (S c) closed cur);
        try done; try (by right).
      * lia.
      * by rewrite decide_True.
      * by apply Hcurrent.
  - (* write *)
    destruct d as [|d0]; [done|].
    destruct (decide (mutex_owner w = Some t)) as [Ho|_]; [|done].
    exists order.
    eapply (advance_inv _ _ _ _ _ _ _ _ _ _ _ _ _ _ _
              (S d0) closed (cur ++ [p]));
      try done; try (by right).
    + intros _. by destruct (I2 t Ho).
    + by rewrite decide_True.
    + rewrite Ho, Hcurrent, map_app, <- app_assoc by done. done.
Qed.

Lemma run_schedule_inv progs sched : ∀ w order,
  world_inv progs w order →
  ∃ order', world_inv progs (run_schedule sched w) order'.
Proof.
  induction sched as [|t sched IH]; intros w order Hinv.
  - by exists order.
  - destruct (thread_step_inv progs w order t Hinv) as [order1 H1].
    apply (IH _ _ H1).
Qed.

(** In a world that disciplined threads have reached, the output is made
    of whole records, and each thread finds its own records among them,
    in the order in which it made them. *)
Lemma world_inv_records progs w order :
  world_inv progs w order →
  ∃ order',
    output w = lines order' ∧
    ∀ t prog, progs !! t = Some prog →
      ∃ done rest,
        executed w !! t = Some done ∧ pending w !! t = Some rest ∧
        prog = done ++ rest ∧
        records_of_thread t order' = records done.
Proof.
  intros (I1 & I2 & I3 & I4 & I5).
  destruct (mutex_owner w) as [t0|] eqn:Ho.
  - destruct (I2 t0 eq_refl) as [Hpos [prog0 Hprog0]].
    destruct (I3 t0 prog0 Hprog0)
      as (done0 & rest0 & d0 & cl0 & cur0 & X1 & X2 & X3 & X4 & X5 & X6 & _).
    rewrite decide_True in X6 by done.
    exists (order ++ [(t0, cur0)]). split.
    + rewrite lines_snoc, I5, X1. cbn [default]. unfold id.
      by rewrite X4.
    + intros t prog Hprog.
      destruct (I3 t prog Hprog)
        as (done & rest & d & cl & cur & E1 & E2 & E3 & E4 & E5 & E6 & E7 & E8).
      exists done, rest. do 3 (split; [done|]).
      rewrite records_of_thread_snoc. unfold records. rewrite E4.
      destruct (decide (t0 = t)) as [->|Hne].
      * rewrite decide_True in E6 by done.
        destruct d; [lia|].
        rewrite X1 in E1. injection E1 as <-.
        rewrite X4 in E4. injection E4 as _ <- <-. by rewrite E8.
      * rewrite decide_False in E6 by congruence. by subst d.
  - exists order. split.
    + by rewrite I5, app_nil_r.
    + intros t prog Hprog.
      destruct (I3 t prog Hprog)
        as (done & rest & d & cl & cur & E1 & E2 & E3 & E4 & E5 & E6 & E7 & E8).
      exists done, rest. do 3 (split; [done|]).
      unfold records. rewrite E4.
      rewrite decide_False in E6 by done. by subst d.
Qed.

Section LogContainment.
Context `{NativeSystem}.

(** C9: every call into the file that returns has written to [stderr]
    only while it held the log mutex, has given the mutex back, and has
    put all its lines into one record, the writes between the first lock
    and the last unlock.  And when threads whose events are bracketed in
    this way (as the events of calls made one after the other are) run
    under any schedule, with the mutex recursive and exclusive between
    threads, the output is a sequence of whole records, each the lines of
    one thread, and every thread finds in it exactly the records it has
    made, in its own order: no line of one record lies inside another. *)
Theorem log_records_contiguous
    (c : LogCall) (st s : State) (v : RetVal)
    (progs : gmap nat (list LogEvent)) (sched : list nat) :
  (run_log_call c st = Some (v, s) →
   ∃ evs, log_events s = log_events st ++ evs ∧
          locked_run 0 evs = Some O ∧
          (length (records evs) ≤ 1)%nat ∧
          log_depth s = log_depth st) ∧
  (map_Forall (λ _ prog, locked_run 0 prog = Some O) progs →
   ∃ order : list (nat * list Payload),
     output (run_schedule sched (start progs)) =
       flat_map (λ r, map (pair r.1) r.2) order ∧
     ∀ t prog, progs !! t = Some prog →
       ∃ done rest,
         executed (run_schedule sched (start progs)) !! t = Some done ∧
         pending (run_schedule sched (start progs)) !! t = Some rest ∧
         prog = done ++ rest ∧
         (filter (λ r, r.1 = t) order).*2 = records done).
Proof.
  split.
  - apply run_log_call_bracketed.
  - intros Hb.
    destruct (run_schedule_inv progs sched (start progs) [])
      as [order Hinv]; [by apply world_inv_start|].
    apply (world_inv_records _ _ _ Hinv).
Qed.

End LogContainment.

(** ** The flag over the life of a process *)

Section FlagTheorems.
Context `{NativeSystem}.

(** A call that returns either leaves the cached flag and the number of
    [getenv] calls alone, or has found the flag unread and has read it,
    with one [getenv]. *)
Lemma run_log_call_flag c st v s :
  run_log_call c st = Some (v, s) →
  (debug_cache s = debug_cache st ∧ getenv_count s = getenv_count st) ∨
  (debug_cache st = -1 ∧ debug_cache s ≠ -1 ∧
   getenv_count s = S (getenv_count st)).
Proof.
  destruct st as [c1 e1 k1 t1 d1 l1 ob inf q nc].
  assert (Hcase : ∀ c' k', (c1 =? -1) = true → c' ≠ -1 →
            (c' = c1 ∧ S k' = k') ∨ (c1 = -1 ∧ c' ≠ -1 ∧ S k' = S k')).
  { intros c' k' E%Z.eqb_eq ?. by right. }
  destruct c as [[i ty|t n names values|obj|obj|t b|info|obj|ptr]|msg len];
    unfold run_log_call, run_call.
  - crunch; intros [= <- <-]; cbn; first [by left | by apply Hcase].
  - rewrite dbg_g_object_new_unfold.
    destruct (construct_instance_frame t n names values ob) as [r Hr].
    unfold_ops; unfold_monad; unfold_state; cbn.
    repeat (first [ rewrite Hr by done | break_match ]; unfold_state; cbn).
    all: intros [= <- <-]; cbn; first [by left | by apply Hcase].
  - intros [= <- <-]. by left.
  - crunch; intros [= <- <-]; cbn; first [by left | by apply Hcase].
  - unfold bind. rewrite boxed_free_helper_eq. intros [= <- <-]. by left.
  - crunch; intros [= <- <-]; cbn; first [by left | by apply Hcase].
  - crunch; intros [= <- <-]; cbn; first [by left | by apply Hcase].
  - crunch; intros [= <- <-]; cbn; first [by left | by apply Hcase].
  - crunch; intros [= <- <-]; cbn; first [by left | by apply Hcase].
Qed.

(** Once the flag is cached, a history reads the cached value every time
    and never calls [getenv]. *)
Lemma run_process_cached steps : ∀ st,
  debug_cache st ≠ -1 →
  Forall (λ v, v = debug_cache st) (run_process steps st).1 ∧
  ∀ st', (run_process steps st).2 = Some st' →
    debug_cache st' = debug_cache st ∧ getenv_count st' = getenv_count st.
Proof.
  induction steps as [|[|name value|name|c] rest IH]; intros st Hc;
    cbn [run_process].
  - split; [constructor|]. by intros st' [= <-].
  - rewrite print_debug_info_eq, resolve_cached, flag_cached by done.
    destruct (IH st Hc) as [Hvs Hst]. cbn. split; [by constructor|done].
  - apply (IH (set_environ (<[name := value]> (environ st)) st) Hc).
  - apply (IH (set_environ (delete name (environ st)) st) Hc).
  - destruct (run_log_call c st) as [[v s]|] eqn:E; cbn.
    + destruct (run_log_call_flag _ _ _ _ E) as [[E1 E2]|[E1 _]]; [|done].
      rewrite <- E1, <- E2. apply IH. by rewrite E1.
    + split; [constructor|done].
Qed.

Lemma run_process_uncached steps : ∀ st,
  debug_cache st = -1 →
  (∃ c, Forall (λ v, v = c) (run_process steps st).1) ∧
  ∀ st', (run_process steps st).2 = Some st' →
    (getenv_count st' ≤ S (getenv_count st))%nat ∧
    ((run_process steps st).1 ≠ [] →
     getenv_count st' = S (getenv_count st)).
Proof.
  induction steps as [|[|name value|name|c] rest IH]; intros st Hc;
    cbn [run_process].
  - split; [exists 0; constructor|]. intros st' [= <-]. cbn. split; [lia|done].
  - rewrite print_debug_info_eq.
    destruct (run_process_cached rest (resolve st) (resolved_neq st))
      as [Hvs Hst].
    rewrite debug_cache_resolve in Hvs. cbn. split.
    + exists (flag st). by constructor.
    + intros st' E. destruct (Hst st' E) as [_ ->].
      rewrite getenv_count_resolve. apply Z.eqb_eq in Hc. rewrite Hc.
      split; [lia|done].
  - apply (IH (set_environ (<[name := value]> (environ st)) st) Hc).
  - apply (IH (set_environ (delete name (environ st)) st) Hc).
  - destruct (run_log_call c st) as [[v s]|] eqn:E; cbn.
    + destruct (run_log_call_flag _ _ _ _ E) as [[E1 E2]|(_ & E1 & E2)].
      * rewrite <- E2. apply IH. by rewrite E1.
      * destruct (run_process_cached rest s E1) as [Hvs Hst]. split.
        -- by exists (debug_cache s).
        -- intros st' E'. destruct (Hst st' E') as [_ ->].
           rewrite E2. split; [lia|done].
    + split; [exists 0; constructor|done].
Qed.

(** C6: take any history of a process that starts with the flag unread:
    reads of the flag, calls into the file (which read the flag
    themselves), and changes of the environment at any point in between.
    All reads of the flag return the same value, and when the process has
    not died in a faulting call, [getenv] has been called at most once in
    all, and exactly once if the flag was read: the first read is the only
    one that looks at the environment. *)
Theorem print_debug_info_stable
    (env : gmap string string) (tid : Z) (steps : list ProcessStep) :
  (∀ v w, v ∈ (run_process steps (initial_state env tid)).1 →
          w ∈ (run_process steps (initial_state env tid)).1 → v = w) ∧
  (∀ st', (run_process steps (initial_state env tid)).2 = Some st' →
     (getenv_count st' ≤ 1)%nat ∧
     ((run_process steps (initial_state env tid)).1 ≠ [] →
      getenv_count st' = 1%nat)).
Proof.
  destruct (run_process_uncached steps (initial_state env tid) eq_refl)
    as [[c Hvs] Hst].
  split; [|done].
  intros v w Hv Hw.
  rewrite (proj1 (Forall_forall _ _) Hvs v Hv).
  by rewrite (proj1 (Forall_forall _ _) Hvs w Hw).
Qed.

(** With diagnostics off, a call that returns has written nothing and has
    not touched the mutex, and diagnostics are still off. *)
Lemma run_log_call_silent c st v s :
  debug_disabled st →
  run_log_call c st = Some (v, s) →
  log_events s = log_events st ∧ debug_disabled s.
Proof.
  destruct st as [c1 e1 k1 t1 d1 l1 ob inf q nc].
  unfold debug_disabled, HASKELL_GI_DEBUG_MEM. cbn.
  intros Hd.
  assert (Hf : (c1 =? -1) = false ∧ (c1 =? 0) = true ∨
               (c1 =? -1) = true ∧
               e1 !! "HASKELL_GI_DEBUG_MEM" = None).
  { destruct Hd as [->|[-> He]]; [by left|by right]. }
  clear Hd.
  assert (Hkeep : c1 = 0 ∨ c1 = -1 ∧ e1 !! "HASKELL_GI_DEBUG_MEM" = None).
  { destruct Hf as [[_ E%Z.eqb_eq]|[E%Z.eqb_eq He]]; [by left|by right]. }
  destruct c as [[i ty|t n names values|obj|obj|t b|info|obj|ptr]|msg len];
    unfold run_log_call, run_call.
  - destruct Hf as [[E1 E2]|[E1 E2]]; crunch; intros [= <- <-]; cbn;
      (split; [done|]); first [by left | exact Hkeep].
  - rewrite dbg_g_object_new_unfold.
    destruct (construct_instance_frame t n names values ob) as [r Hr].
    destruct Hf as [[E1 E2]|[E1 E2]];
      unfold_ops; unfold_monad; unfold_state; cbn;
      repeat (first [ rewrite Hr by done | break_match ];
              unfold_state; cbn).
    all: intros [= <- <-]; cbn;
      (split; [done|]); first [by left | exact Hkeep].
  - intros [= <- <-]. cbn. split; [done|]. exact Hkeep.
  - destruct Hf as [[E1 E2]|[E1 E2]]; crunch; intros [= <- <-]; cbn;
      (split; [done|]); first [by left | exact Hkeep].
  - unfold bind. rewrite boxed_free_helper_eq. intros [= <- <-]. cbn.
    split; [done|]. exact Hkeep.
  - destruct Hf as [[E1 E2]|[E1 E2]]; crunch; intros [= <- <-]; cbn;
      (split; [done|]); first [by left | exact Hkeep].
  - destruct Hf as [[E1 E2]|[E1 E2]]; crunch; intros [= <- <-]; cbn;
      (split; [done|]); first [by left | exact Hkeep].
  - destruct Hf as [[E1 E2]|[E1 E2]]; crunch; intros [= <- <-]; cbn;
      (split; [done|]); first [by left | exact Hkeep].
  - destruct Hf as [[E1 E2]|[E1 E2]]; crunch; intros [= <- <-]; cbn;
      (split; [done|]); first [by left | exact Hkeep].
Qed.

(** C7: when diagnostics are off (the flag is cached as [0], or it is not
    cached yet and the variable is absent from the environment), both
    [dbg_log_with_len] and [dbg_log] return, for every message, length
    and argument list, without a write to [stderr] and without touching
    the log mutex, and diagnostics are still off afterwards.  The same
    holds of every call into the file that returns: with the flag off
    nothing is written. *)
Theorem logging_gated_by_flag
    (st : State) (msg : list Byte.byte) (len : Z)
    (fmt : string) (args : list PrintfArg) :
  debug_disabled st →
  (∃ st1 st2,
     dbg_log_with_len msg len st = Some (tt, st1) ∧
     dbg_log fmt args st = Some (tt, st2) ∧
     stderr st1 = stderr st ∧ log_events st1 = log_events st ∧
     stderr st2 = stderr st ∧ log_events st2 = log_events st ∧
     debug_disabled st1 ∧ debug_disabled st2) ∧
  (∀ c v s, run_log_call c st = Some (v, s) →
     stderr s = stderr st ∧ log_events s = log_events st ∧
     debug_disabled s).
Proof.
  intros Hd. split.
  - apply debug_disabled_flag in Hd.
    exists (resolve st), (resolve st).
    rewrite dbg_log_with_len_off, dbg_log_off by done.
    unfold stderr. rewrite log_events_resolve.
    rewrite !debug_disabled_flag, flag_resolve. done.
  - intros c v s E.
    destruct (run_log_call_silent c st v s Hd E) as [El Hs].
    unfold stderr. by rewrite El.
Qed.

End FlagTheorems.

(** ** What the diagnostics say *)

Lemma debug_enabled_cases c e k t d l ob inf q nc :
  debug_enabled (mkState c e k t d l ob inf q nc) →
  (c =? -1) = false ∧ (c =? 0) = false ∨
  (c =? -1) = true ∧ ∃ s, e !! "HASKELL_GI_DEBUG_MEM" = Some s.
Proof.
  unfold debug_enabled, flag, HASKELL_GI_DEBUG_MEM. cbn.
  destruct (c =? -1) eqn:E1.
  - destruct (e !! "HASKELL_GI_DEBUG_MEM") as [s|]; [|done].
    intros _. right. split; [done|]. by exists s.
  - intros Hc%Z.eqb_neq. by left.
Qed.

Lemma to_int_small x : 0 ≤ x < 2 ^ 31 → to_int x = x.
Proof. intros Hx. unfold to_int. rewrite Z.mod_small; lia. Qed.

Lemma to_int_large x : 2 ^ 31 ≤ x < 2 ^ 32 → to_int x = x - 2 ^ 32.
Proof.
  intros Hx. unfold to_int.
  replace (x + 2 ^ 31) with ((x - 2 ^ 31) + 1 * 2 ^ 32) by lia.
  rewrite Z.mod_add by lia. rewrite Z.mod_small; lia.
Qed.

Ltac close_lines :=
  eexists; (split; [reflexivity|]);
  unfold stderr, debug_enabled, flag; cbn;
  rewrite ?omap_app; cbn; rewrite <- ?app_assoc;
  repeat split; done.

Section Diagnostics.
Context `{NativeSystem}.

(** X1: the first use of the log decides on the presence of the variable, not
    on its value: from an unread flag, [dbg_log] writes its line and
    caches [1] when the variable is in the environment, whatever it is
    set to, and writes nothing and caches [0] when it is not. *)
Theorem dbg_log_follows_variable
    (st : State) (fmt : string) (args : list PrintfArg) :
  debug_cache st = -1 →
  (∀ value, environ st !! HASKELL_GI_DEBUG_MEM = Some value →
     ∃ st', dbg_log fmt args st = Some (tt, st') ∧
            stderr st' = stderr st ++ [Formatted fmt args] ∧
            debug_cache st' = 1 ∧ log_depth st' = log_depth st) ∧
  (environ st !! HASKELL_GI_DEBUG_MEM = None →
     ∃ st', dbg_log fmt args st = Some (tt, st') ∧
            stderr st' = stderr st ∧ debug_cache st' = 0).
Proof.
  destruct st as [c e k t d l ob inf q nc]. cbn.
  unfold HASKELL_GI_DEBUG_MEM. intros ->. split.
  - intros value He. crunch. close_lines.
  - intros He. crunch. close_lines.
Qed.

(** X2: with diagnostics on, [dbg_log_with_len] writes the first [len] bytes
    of the buffer and nothing else, whatever bytes these are and whatever
    follows them, inside one lock and unlock of the mutex. *)
Theorem dbg_log_with_len_writes_prefix
    (st : State) (prefix rest : list Byte.byte) :
  debug_enabled st →
  ∃ st',
    dbg_log_with_len (prefix ++ rest) (Z.of_nat (length prefix)) st =
      Some (tt, st') ∧
    log_events st' =
      log_events st ++ [MutexLock; StderrWrite (Bytes prefix); MutexUnlock] ∧
    log_depth st' = log_depth st ∧ native st' = native st.
Proof.
  destruct st as [c e k t d l ob inf q nc].
  intros [[E1 E2]|[E1 [s E2]]]%debug_enabled_cases.
  all: assert (Hb : (0 <=? Z.of_nat (length prefix)) &&
                    (Z.of_nat (length prefix) <=?
                     Z.of_nat (length (prefix ++ rest))) = true)
    by (rewrite length_app; apply andb_true_intro; split;
        apply Z.leb_le; lia).
  all: unfold dbg_log_with_len, fwrite_stderr; rewrite Hb;
    rewrite Nat2Z.id, take_app_length.
  all: crunch; eexists; (split; [reflexivity|]); cbn;
    rewrite <- ?app_assoc; done.
Qed.

(** X3: with diagnostics on, the check of a [NULL] handle is reported by one
    line, and the function still returns [0]. *)
Theorem check_object_type_reports_null (st : State) (type : Z) :
  debug_enabled st →
  ∃ st', check_object_type NULL type st = Some (0, st') ∧
         stderr st' =
           stderr st ++
           [Formatted "Check failed: got a null pointer\n" []] ∧
         native st' = native st.
Proof.
  destruct st as [c e k t d l ob inf q nc].
  intros [[E1 E2]|[E1 [s E2]]]%debug_enabled_cases; crunch; close_lines.
Qed.

(** X4: the requests of a disposal and the safe release have no diagnostics:
    in every state they leave the log and its mutex alone, and they do not
    read the flag, so they never look at the environment. *)
Theorem requests_leave_log_alone (st : State) (obj t b ptr : Z) :
  (∃ st', dbg_g_object_unref obj st = Some (tt, st') ∧
          log_events st' = log_events st ∧ log_depth st' = log_depth st ∧
          debug_cache st' = debug_cache st ∧
          getenv_count st' = getenv_count st) ∧
  (∃ st', boxed_free_helper t b st = Some (tt, st') ∧
          log_events st' = log_events st ∧ log_depth st' = log_depth st ∧
          debug_cache st' = debug_cache st ∧
          getenv_count st' = getenv_count st) ∧
  (∃ st', safeFreeFunPtr ptr st = Some (tt, st') ∧
          log_events st' = log_events st ∧ log_depth st' = log_depth st ∧
          debug_cache st' = debug_cache st ∧
          getenv_count st' = getenv_count st).
Proof.
  split; [|split].
  - eexists. split; [reflexivity|]. done.
  - rewrite boxed_free_helper_eq. eexists. split; [reflexivity|]. done.
  - destruct (decide (ptr = NULL)) as [->|Hn].
    + rewrite safeFreeFunPtr_null. by eexists.
    + rewrite safeFreeFunPtr_nonnull by done. by eexists.
Qed.

(** X5: with diagnostics on, the callback of a deferred unref on a live
    instance writes four lines: the handle with the thread that runs the
    callback, the name of the instance's type, the reference count as it
    is before the release, and the closing line.  The count is printed as
    an [int]: it is the count itself below [2^31]. *)
Theorem unref_callback_reports_count_before
    (st : State) (obj : Z) (o : GObject) :
  debug_enabled st →
  objects st !! obj = Some o →
  ∃ st',
    g_object_unref_in_main_loop obj st = Some (FALSE, st') ∧
    stderr st' =
      stderr st ++
      [Formatted "Unref of %p from idle callback [thread: %p]\n"
                 [ArgPtr obj; ArgPtr (thread_self st)];
       Formatted "\tIt is of type %s\n" [ArgStr (g_type_name (g_type o))];
       Formatted "\tIts refcount before unref is %d\n"
                 [ArgInt (to_int (ref_count o))];
       Formatted "\tUnref done\n" []] ∧
    objects st' = unref_heap obj o (objects st) ∧
    (0 ≤ ref_count o < 2 ^ 31 → to_int (ref_count o) = ref_count o).
Proof.
  destruct st as [c e k t d l ob inf q nc]. cbn.
  intros [[E1 E2]|[E1 [s E2]]]%debug_enabled_cases Ho;
    unfold unref_heap; crunch.
  all: eexists; (split; [reflexivity|]); unfold stderr; cbn;
    rewrite ?omap_app; cbn; rewrite <- ?app_assoc;
    repeat split; try done; apply to_int_small.
Qed.

(** X6: with diagnostics on, disowning a live instance writes three lines:
    the handle with the calling thread, the name of its type, and its
    reference count, which the call leaves as it is. *)
Theorem disown_reports_instance (st : State) (obj : Z) (o : GObject) :
  debug_enabled st →
  objects st !! obj = Some o →
  ∃ st',
    dbg_g_object_disown obj st = Some (tt, st') ∧
    stderr st' =
      stderr st ++
      [Formatted "Disowning a GObject at %p [thread: %p]\n"
                 [ArgPtr obj; ArgPtr (thread_self st)];
       Formatted "\tIt is of type %s\n" [ArgStr (g_type_name (g_type o))];
       Formatted "\tIts refcount before disowning is %d\n"
                 [ArgInt (to_int (ref_count o))]] ∧
    objects st' !! obj = Some o.
Proof.
  destruct st as [c e k t d l ob inf q nc]. cbn.
  intros [[E1 E2]|[E1 [s E2]]]%debug_enabled_cases Ho; crunch; close_lines.
Qed.

(** X7: with diagnostics on, the callback of a deferred boxed free writes
    three lines: the value with the thread that runs the callback, the
    name of the type its record holds, and the closing line with the value
    again, read from the record before the record is freed. *)
Theorem boxed_callback_reports_value
    (st : State) (info : Z) (r : BoxedFreeInfo) :
  debug_enabled st →
  infos st !! info = Some r →
  ∃ st',
    main_loop_boxed_free_helper info st = Some (FALSE, st') ∧
    stderr st' =
      stderr st ++
      [Formatted
         "Freeing a boxed object at %p from idle callback [thread: %p]\n"
         [ArgPtr (boxed r); ArgPtr (thread_self st)];
       Formatted "\tIt is of type %s\n" [ArgStr (g_type_name (gtype r))];
       Formatted "\tdone freeing %p.\n" [ArgPtr (boxed r)]] ∧
    boxed_free_calls st' = boxed_free_calls st ++ [(gtype r, boxed r)].
Proof.
  destruct st as [c e k t d l ob inf q nc]. cbn.
  intros [[E1 E2]|[E1 [s E2]]]%debug_enabled_cases Hr; crunch.
  all: eexists; (split; [reflexivity|]);
    unfold stderr, boxed_free_calls; cbn;
    rewrite ?omap_app; cbn; rewrite <- ?app_assoc; repeat split; done.
Qed.

(** X8: with diagnostics on, a construction is framed by two lines: the name
    of the type asked for with the calling thread before, and the pointer
    that is returned after, also when that pointer is [NULL]. *)
Theorem new_reports_type_and_pointer
    (st : State) (t : Z) (n : nat) (names : list string)
    (values : list GValue) (p : Z) (objs : gmap Z GObject) :
  debug_enabled st →
  (n ≤ length names)%nat → (n ≤ length values)%nat →
  construct t (zip (take n names) (take n values)) (objects st) = (p, objs) →
  p = NULL ∨ is_Some (objs !! p) →
  ∃ st',
    dbg_g_object_new t n names values st = Some (p, st') ∧
    stderr st' =
      stderr st ++
      [Formatted "Creating a new GObject of type %s [thread: %p]\n"
                 [ArgStr (g_type_name t); ArgPtr (thread_self st)];
       Formatted "\tdone, got a pointer at %p\n" [ArgPtr p]] ∧
    log_depth st' = log_depth st.
Proof.
  destruct st as [c e k tid d l ob inf q nc]. cbn.
  intros Hen Hn Hv Hc Hp.
  rewrite dbg_g_object_new_unfold.
  assert (Hp' : (p =? 0) = true ∨ (p =? 0) = false ∧ ∃ o, objs !! p = Some o).
  { destruct Hp as [->|[o Ho]]; [by left|].
    destruct (p =? 0) eqn:E; [by left|]. right. split; [done|]. by exists o. }
  apply debug_enabled_cases in Hen.
  destruct Hen as [[E1 E2]|[E1 [s E2]]];
    destruct Hp' as [E3|[E3 [o E4]]];
    unfold_ops; unfold_monad; unfold_state; cbn;
    repeat (first [ erewrite construct_instance_eq by (cbn; done)
                  | break_match ];
            unfold_state; cbn).
  all: eexists; (split; [reflexivity|]); unfold stderr; cbn;
    rewrite ?omap_app; cbn; rewrite <- ?app_assoc; done.
Qed.

(** X9: a construction that fails with [NULL] is passed on as it is:
    [dbg_g_object_new] returns [NULL], calls no reference-counting
    primitive and leaves the heap as the constructor left it. *)
Theorem new_passes_null_on
    (st : State) (t : Z) (n : nat) (names : list string)
    (values : list GValue) (objs : gmap Z GObject) :
  (n ≤ length names)%nat → (n ≤ length values)%nat →
  construct t (zip (take n names) (take n values)) (objects st) =
    (NULL, objs) →
  ∃ st',
    dbg_g_object_new t n names values st = Some (NULL, st') ∧
    objects st' = objs ∧
    native_calls st' =
      native_calls st ++
      [CallObjectNew t (zip (take n names) (take n values)) NULL] ∧
    idle_queue st' = idle_queue st ∧ log_depth st' = log_depth st.
Proof.
  destruct st as [c e k tid d l ob inf q nc]. cbn.
  intros Hn Hv Hc.
  rewrite dbg_g_object_new_unfold.
  unfold_ops; unfold_monad; unfold_state; cbn.
  repeat (first [ erewrite construct_instance_eq by (cbn; done)
                | break_match ];
          unfold_state; cbn).
  all: eexists; (split; [reflexivity|]); cbn; done.
Qed.

(** X10: the two branches of the version switch in [dbg_g_object_new] do the
    same: copying the first [n_props] names and values into parameters
    and calling [g_object_newv] gives what
    [g_object_new_with_properties] gives on the arrays themselves, and
    faults where it faults. *)
Theorem version_branches_agree
    (st : State) (t : Z) (n : nat) (names : list string)
    (values : list GValue) :
  (do params <- copy_params 0 n names values;
   g_object_newv t n params) st =
  g_object_new_with_properties t n names values st.
Proof.
  destruct (decide ((n ≤ length names)%nat ∧ (n ≤ length values)%nat))
    as [[Hn Hv]|Hb].
  - assert (Ln : (n <=? length names)%nat = true) by by apply Nat.leb_le.
    assert (Lv : (n <=? length values)%nat = true) by by apply Nat.leb_le.
    unfold bind at 1. rewrite copy_params_eq by (cbn; lia). rewrite !drop_0.
    unfold g_object_newv, g_object_new_with_properties, load_array,
      bind, gets, modify, ret.
    assert (Lz : length (zip (take n names) (take n values)) = n).
    { rewrite length_zip, !length_take. lia. }
    rewrite Lz, Nat.leb_refl, Ln. cbn. rewrite Lv. cbn.
    by rewrite (take_ge (zip _ _) n) by lia.
  - unfold bind at 1. rewrite copy_params_fault; [|lia|cbn; lia].
    unfold g_object_new_with_properties, load_array, bind, fault.
    destruct (n <=? length names)%nat eqn:Ln; [|done].
    destruct (n <=? length values)%nat eqn:Lv; [|done].
    apply Nat.leb_le in Ln, Lv. tauto.
Qed.

(** *** How deep the mutex is locked *)

Lemma run_log_call_depth_bound c st v s :
  run_log_call c st = Some (v, s) →
  ∃ evs, log_events s = log_events st ++ evs ∧ (deepest 0 evs ≤ 2)%nat.
Proof.
  destruct st as [c1 e1 k1 t1 d1 l1 ob inf q nc].
  assert (Hnil : ∃ evs, l1 = l1 ++ evs ∧ (deepest 0 evs ≤ 2)%nat).
  { exists []. rewrite app_nil_r. cbn. split; [done|lia]. }
  destruct c as [[i ty|t n names values|obj|obj|t b|info|obj|ptr]|msg len];
    unfold run_log_call, run_call.
  - crunch; intros [= <- <-]; cbn; rewrite <- ?app_assoc;
      first [ exact Hnil | eexists; split; [reflexivity|vm_compute; lia] ].
  - rewrite dbg_g_object_new_unfold.
    destruct (construct_instance_frame t n names values ob) as [r Hr].
    unfold_ops; unfold_monad; unfold_state; cbn.
    repeat (first [ rewrite Hr by done | break_match ]; unfold_state; cbn).
    all: intros [= <- <-]; cbn; rewrite <- ?app_assoc;
      first [ exact Hnil | eexists; split; [reflexivity|vm_compute; lia] ].
  - intros [= <- <-]. exact Hnil.
  - crunch; intros [= <- <-]; cbn; rewrite <- ?app_assoc;
      first [ exact Hnil | eexists; split; [reflexivity|vm_compute; lia] ].
  - unfold bind. rewrite boxed_free_helper_eq. intros [= <- <-]. exact Hnil.
  - crunch; intros [= <- <-]; cbn; rewrite <- ?app_assoc;
      first [ exact Hnil | eexists; split; [reflexivity|vm_compute; lia] ].
  - crunch; intros [= <- <-]; cbn; rewrite <- ?app_assoc;
      first [ exact Hnil | eexists; split; [reflexivity|vm_compute; lia] ].
  - crunch; intros [= <- <-]; cbn; rewrite <- ?app_assoc;
      first [ exact Hnil | eexists; split; [reflexivity|vm_compute; lia] ].
  - crunch; intros [= <- <-]; cbn; rewrite <- ?app_assoc;
      first [ exact Hnil | eexists; split; [reflexivity|vm_compute; lia] ].
Qed.

Lemma run_log_call_nested c st v s :
  debug_enabled st →
  frames_record c = true →
  run_log_call c st = Some (v, s) →
  ∃ evs, log_events s = log_events st ++ evs ∧ deepest 0 evs = 2%nat.
Proof.
  destruct st as [c1 e1 k1 t1 d1 l1 ob inf q nc].
  intros Hen%debug_enabled_cases Hfr.
  destruct c as [[i ty|t n names values|obj|obj|t b|info|obj|ptr]|msg len];
    try discriminate Hfr; unfold run_log_call, run_call.
  - rewrite dbg_g_object_new_unfold.
    destruct (construct_instance_frame t n names values ob) as [r Hr].
    destruct Hen as [[E1 E2]|[E1 [s0 E2]]];
      unfold_ops; unfold_monad; unfold_state; cbn;
      repeat (first [ rewrite Hr by done | break_match ];
              unfold_state; cbn).
    all: intros [= <- <-]; cbn; rewrite <- ?app_assoc;
      (eexists; split; [reflexivity|vm_compute; reflexivity]).
  - destruct Hen as [[E1 E2]|[E1 [s0 E2]]]; crunch;
      intros [= <- <-]; cbn; rewrite <- ?app_assoc;
      (eexists; split; [reflexivity|vm_compute; reflexivity]).
  - destruct Hen as [[E1 E2]|[E1 [s0 E2]]]; crunch;
      intros [= <- <-]; cbn; rewrite <- ?app_assoc;
      (eexists; split; [reflexivity|vm_compute; reflexivity]).
  - destruct Hen as [[E1 E2]|[E1 [s0 E2]]]; crunch;
      intros [= <- <-]; cbn; rewrite <- ?app_assoc;
      (eexists; split; [reflexivity|vm_compute; reflexivity]).
Qed.

(** X11: the log mutex has to be recursive, and twice is as deep as it gets: a
    call never holds it more than two levels deep, and with diagnostics
    on the construction, the disown and the two callbacks do lock it a
    second time while they hold it, for each line they write through
    [dbg_log]. *)
Theorem log_mutex_locked_twice
    (c : LogCall) (st s : State) (v : RetVal) :
  run_log_call c st = Some (v, s) →
  ∃ evs, log_events s = log_events st ++ evs ∧
         (deepest 0 evs ≤ 2)%nat ∧
         (debug_enabled st → frames_record c = true →
          deepest 0 evs = 2%nat).
Proof.
  intros E.
  destruct (run_log_call_depth_bound c st v s E) as (evs & El & Hb).
  exists evs. split; [done|]. split; [done|].
  intros Hen Hfr.
  destruct (run_log_call_nested c st v s Hen Hfr E) as (evs' & El' & Hd).
  rewrite El in El'. apply app_inv_head in El'. by subst evs'.
Qed.

End Diagnostics.

(** ** The main loop, round by round *)

Section MainLoop.
Context `{NativeSystem}.

Lemma boxed_records_take n : ∀ q p,
  p ∈ boxed_records (take n q) → p ∈ boxed_records q.
Proof.
  induction n as [|n IH]; intros q p.
  - rewrite take_0. intros Hp. by apply elem_of_nil in Hp.
  - destruct q as [|[[] d] q]; [done| |].
    + change (p ∈ boxed_records (take n q) → p ∈ boxed_records q).
      apply IH.
    + change (p ∈ d :: boxed_records (take n q) →
              p ∈ d :: boxed_records q).
      intros [->|Hp]%elem_of_cons; [by left|]. right. by apply IH.
Qed.

Lemma expected_calls_cons recs src q :
  expected_calls recs (src :: q) =
  expected_calls recs [src] ++ expected_calls recs q.
Proof. unfold expected_calls. cbn. by rewrite app_nil_r. Qed.

(** [n] rounds of the loop on a ready queue serve its first [n] sources,
    in order, and leave the others queued as they were. *)
Lemma run_main_loop_prefix n : ∀ q st,
  idle_queue st = q →
  queue_ready st q →
  ∃ st', run_main_loop n st = Some (tt, st') ∧
         idle_queue st' = drop n q ∧
         native_calls st' =
           native_calls st ++ expected_calls (infos st) (take n q) ∧
         log_depth st' = log_depth st ∧
         queue_ready st' (drop n q).
Proof.
  induction n as [|n IH]; intros q st Hq Hr.
  - exists st. cbn. rewrite drop_0, take_0. unfold expected_calls. cbn.
    by rewrite app_nil_r.
  - destruct q as [|[f d] rest].
    + exists st. rewrite run_main_loop_empty by done.
      unfold expected_calls. cbn. by rewrite app_nil_r.
    + cbn [run_main_loop take drop]. unfold bind at 1.
      rewrite expected_calls_cons.
      destruct f.
      * destruct Hr as (Hu & Hr'). destruct (Hu d) as (o & Ho & _); [by left|].
        destruct (dispatch_idle_unref st d rest o Hq Ho)
          as (st1 & -> & Q1 & O1 & I1 & C1 & D1).
        destruct (IH rest st1 Q1) as (st' & -> & Q' & C' & D' & R');
          [by eapply queue_ready_after_unref|].
        exists st'. split; [done|]. split; [done|].
        rewrite C', C1, I1, <- app_assoc.
        split; [done|]. split; [congruence|done].
      * pose proof Hr as (_ & _ & Hb).
        destruct (Hb d) as (Hd & r & Hi); [by left|].
        destruct (dispatch_idle_boxed st d rest r Hq Hd Hi)
          as (st1 & -> & Q1 & O1 & I1 & C1 & D1).
        destruct (queue_ready_after_boxed st st1 d rest Hr O1 I1)
          as [Hr1 Hni].
        destruct (IH rest st1 Q1 Hr1) as (st' & -> & Q' & C' & D' & R').
        exists st'. split; [done|]. split; [done|].
        rewrite C', C1, I1, <- app_assoc.
        rewrite expected_calls_delete.
        -- unfold expected_calls at 1. cbn. rewrite Hi. cbn.
           split; [done|]. split; [congruence|done].
        -- intros Hin. apply Hni. by eapply boxed_records_take.
Qed.

(** Rounds of the loop add up. *)
Lemma run_main_loop_add n m : ∀ st,
  run_main_loop (n + m) st = (run_main_loop n;; run_main_loop m) st.
Proof.
  induction n as [|n IH]; intros st; [done|].
  cbn [Nat.add run_main_loop]. unfold bind at 1 2 3.
  destruct (dispatch_idle st) as [[more st1]|] eqn:E; [|done].
  destruct more; [apply IH|].
  unfold ret. symmetry. apply run_main_loop_empty.
  unfold dispatch_idle, bind, gets in E.
  destruct (idle_queue st) as [|[f d] rest] eqn:Hq.
  - by injection E as <-.
  - cbn in E. destruct (call_source f d _) as [[again s2]|]; [|done].
    cbn in E. by destruct (truthy again).
Qed.

(** X12: the loop serves the idle queue in order and one source per round:
    after [n] rounds on a ready queue, the native calls of the first [n]
    sources have been made, in the order of the queue, and the queue is
    what came after them, in the same order and still ready.  No source
    runs twice and none is put back; and running [n] rounds and then [m]
    is running [n + m]. *)
Theorem main_loop_serves_in_order (st : State) (n m : nat) :
  queue_ready st (idle_queue st) →
  ∃ st', run_main_loop n st = Some (tt, st') ∧
         idle_queue st' = drop n (idle_queue st) ∧
         native_calls st' =
           native_calls st ++
           expected_calls (infos st) (take n (idle_queue st)) ∧
         queue_ready st' (idle_queue st') ∧
         run_main_loop (n + m) st = run_main_loop m st'.
Proof.
  intros Hr.
  destruct (run_main_loop_prefix n (idle_queue st) st eq_refl Hr)
    as (st' & E & Q & C & _ & R).
  exists st'. do 3 (split; [done|]). split.
  - by rewrite Q.
  - rewrite run_main_loop_add. unfold bind. by rewrite E.
Qed.

(** *** Requests of both kinds *)

Lemma disposal_calls_app st calls :
  filter (λ c, is_disposal c = true) (native_calls st ++ calls) =
  disposal_calls st ++ filter (λ c, is_disposal c = true) calls.
Proof. apply filter_app. Qed.

Lemma submit_requests reqs : ∀ st,
  ∃ q st1,
    submit_all submit_request reqs st = Some (tt, st1) ∧
    objects st1 = objects st ∧
    idle_queue st1 = idle_queue st ++ q ∧
    Forall2 (serves (infos st1)) q reqs ∧
    NoDup (boxed_records q) ∧
    (∀ p, p ∈ boxed_records q → p ≠ NULL ∧ infos st !! p = None) ∧
    (∀ p, p ∉ boxed_records q → infos st1 !! p = infos st !! p) ∧
    disposal_calls st1 = disposal_calls st.
Proof.
  induction reqs as [|[obj|t b] reqs IH]; intros st.
  - exists [], st. cbn. rewrite app_nil_r.
    do 3 (split; [done|]). split; [constructor|]. split; [constructor|].
    split; [|done]. intros p Hp. by apply elem_of_nil in Hp.
  - destruct (dbg_g_object_unref_spec st obj) as (sa & E & O & I & Q & C & _).
    destruct (IH sa)
      as (q & st1 & E1 & O1 & Q1 & Hs & Hnd & Hfr & Hoth & D1).
    exists ((g_object_unref_in_main_loop_fn, obj) :: q), st1.
    cbn [submit_all submit_request]. unfold bind. rewrite E.
    split; [done|]. split; [congruence|].
    split; [by rewrite Q1, Q, <- app_assoc|].
    split; [by constructor|].
    change (boxed_records (_ :: q)) with (boxed_records q).
    split; [done|]. split; [|split].
    + intros p Hp. rewrite <- I. by apply Hfr.
    + intros p Hp. rewrite <- I. by apply Hoth.
    + rewrite D1. unfold disposal_calls at 1.
      rewrite C, disposal_calls_app. cbn. by rewrite app_nil_r.
  - destruct (boxed_free_helper_spec st t b)
      as (p & sa & E & Hp & Hf & _ & O & I & Q & C & _).
    destruct (IH sa)
      as (q & st1 & E1 & O1 & Q1 & Hs & Hnd & Hfr & Hoth & D1).
    assert (Hni : p ∉ boxed_records q).
    { intros Hin. destruct (Hfr p Hin) as [_ Hnone].
      by rewrite I, lookup_insert_eq in Hnone. }
    exists ((main_loop_boxed_free_helper_fn, p) :: q), st1.
    cbn [submit_all submit_request]. unfold bind. rewrite E.
    split; [done|]. split; [congruence|].
    split; [by rewrite Q1, Q, <- app_assoc|].
    split.
    { constructor; [|done]. split; [done|]. cbn.
      rewrite Hoth by done. by rewrite I, lookup_insert_eq. }
    change (boxed_records (_ :: q)) with (p :: boxed_records q).
    split; [by constructor|]. split; [|split].
    + intros p' [->|Hin]%elem_of_cons; [done|].
      destruct (Hfr p' Hin) as [Hn' Hnone]. split; [done|].
      rewrite I in Hnone. by apply lookup_insert_None in Hnone as [? _].
    + intros p' [Hne Hni']%not_elem_of_cons.
      rewrite Hoth by done. by rewrite I, lookup_insert_ne.
    + rewrite D1. unfold disposal_calls at 1.
      rewrite C, disposal_calls_app. cbn. by rewrite app_nil_r.
Qed.

Lemma serves_shape recs q reqs :
  Forall2 (serves recs) q reqs →
  unref_handles q = released_handles reqs ∧
  (∀ p, p ∈ boxed_records q → is_Some (recs !! p)) ∧
  ∀ n, filter (λ c, is_disposal c = true)
         (expected_calls recs (take n q)) =
       map disposal_of (take n reqs).
Proof.
  induction 1 as [|[f d] [obj|t b] q reqs Hs _ (E1 & E2 & E3)].
  - repeat split; try done.
    + intros p Hp. by apply elem_of_nil in Hp.
    + intros n. by rewrite !take_nil.
  - cbn in Hs. injection Hs as -> ->.
    change (unref_handles (_ :: q)) with (obj :: unref_handles q).
    change (boxed_records (_ :: q)) with (boxed_records q).
    cbn [released_handles omap]. fold (released_handles reqs).
    rewrite E1. repeat split; try done.
    intros [|n]; [done|]. cbn [take map].
    rewrite expected_calls_cons, filter_app, E3. done.
  - destruct Hs as [Hf Hr]. cbn in Hf, Hr. subst f.
    change (unref_handles (_ :: q)) with (unref_handles q).
    change (boxed_records (_ :: q)) with (d :: boxed_records q).
    cbn [released_handles omap]. fold (released_handles reqs).
    repeat split; try done.
    + intros p [->|Hp]%elem_of_cons; [by rewrite Hr|by apply E2].
    + intros [|n]; [done|]. cbn [take map].
      rewrite expected_calls_cons, filter_app, E3.
      unfold expected_calls at 1. cbn. rewrite Hr. done.
Qed.

(** X13: requests of both kinds are served in the order in which they were
    made.  After any mix of requests to an idle loop, for instances that
    hold a reference per release asked for, nothing has been disposed of
    yet; after [n] rounds of the loop exactly the first [n] requests have
    been, each by one call of its primitive on what the request named,
    and the others are still queued. *)
Theorem requests_served_in_order
    (st : State) (reqs : list Request) (n : nat) :
  idle_queue st = [] →
  holds_references st (released_handles reqs) →
  ∃ st1 st2,
    submit_all submit_request reqs st = Some (tt, st1) ∧
    disposal_calls st1 = disposal_calls st ∧
    run_main_loop n st1 = Some (tt, st2) ∧
    disposal_calls st2 =
      disposal_calls st ++ map disposal_of (take n reqs) ∧
    length (idle_queue st2) = (length reqs - n)%nat.
Proof.
  intros Hq Href.
  destruct (submit_requests reqs st)
    as (q & st1 & E1 & O1 & Q1 & Hs & Hnd & Hfr & Hoth & D1).
  rewrite Hq in Q1. cbn in Q1.
  destruct (serves_shape _ _ _ Hs) as (S1 & S2 & S3).
  destruct (run_main_loop_prefix n q st1 Q1) as (st2 & E2 & Q2 & C2 & _ & _).
  { split; [|split].
    - rewrite S1, O1. done.
    - done.
    - intros p Hp. split; [by apply Hfr|by apply S2]. }
  exists st1, st2. do 3 (split; [done|]). split.
  - unfold disposal_calls at 1. by rewrite C2, disposal_calls_app, S3, D1.
  - rewrite Q2, length_drop. by rewrite (Forall2_length _ _ _ Hs).
Qed.

(** *** Construction and release *)

Lemma unref_heap_lookup_eq obj o objs :
  unref_heap obj o objs !! obj = release_one o.
Proof.
  unfold unref_heap, release_one. destruct (ref_count o <=? 1).
  - apply lookup_delete_eq.
  - apply lookup_insert_eq.
Qed.

(** X14: constructing an instance and releasing it once through the loop
    gives back exactly what the construction took.  The instance ends as
    what is left, after one release, of the instance as
    [dbg_g_object_new] returned it; so an initially unowned instance that
    the constructor did not leave floating (it has an owner already) is
    afterwards as the constructor left it, and an instance whose only
    reference was the floating or the initial one is finalized.  No other
    instance is touched. *)
Theorem construct_then_release
    (st : State) (t : Z) (n : nat) (names : list string)
    (values : list GValue) (p : Z) (objs : gmap Z GObject) (o : GObject) :
  (n ≤ length names)%nat → (n ≤ length values)%nat →
  construct t (zip (take n names) (take n values)) (objects st) = (p, objs) →
  p ≠ NULL →
  objs !! p = Some o →
  idle_queue st = [] →
  ∃ st',
    (do h <- dbg_g_object_new t n names values;
     dbg_g_object_unref h;;
     run_main_loop 1) st = Some (tt, st') ∧
    idle_queue st' = [] ∧
    objects st' !! p =
      release_one (if initially_unowned o then ref_sink o else o) ∧
    (∀ other, other ≠ p → objects st' !! other = objs !! other) ∧
    (initially_unowned o = true → floating o = false → 1 ≤ ref_count o →
     objects st' !! p = Some o) ∧
    (ref_count o ≤ 1 → (initially_unowned o = true → floating o = true) →
     objects st' !! p = None).
Proof.
  intros Hn Hv Hc Hp Ho Hq.
  destruct (dbg_g_object_new_spec st t n names values p objs o)
    as (s1 & E1 & O1 & C1 & I1 & Q1 & D1); try done.
  destruct (dbg_g_object_unref_spec s1 p) as (s2 & E2 & O2 & I2 & Q2 & C2 & _).
  rewrite Q1, Hq in Q2. cbn in Q2.
  set (o1 := if initially_unowned o then ref_sink o else o).
  assert (Ho1 : objects s2 !! p = Some o1).
  { rewrite O2, O1. unfold o1. destruct (initially_unowned o).
    - apply lookup_insert_eq.
    - done. }
  destruct (dispatch_idle_unref s2 p [] o1 Q2 Ho1)
    as (s3 & E3 & Q3 & O3 & _).
  exists s3. split.
  { unfold bind at 1. rewrite E1. unfold bind at 1. rewrite E2.
    cbn [run_main_loop]. unfold bind. rewrite E3. done. }
  split; [done|].
  assert (Hl : objects s3 !! p = release_one o1).
  { rewrite O3. apply unref_heap_lookup_eq. }
  split; [done|]. split; [|split].
  - intros other Hne. rewrite O3, O2, O1. unfold unref_heap.
    assert (Hsame : ∀ m : gmap Z GObject,
              (if initially_unowned o then <[p := ref_sink o]> m else m)
                !! other = m !! other).
    { intros m. destruct (initially_unowned o); [|done].
      by rewrite lookup_insert_ne. }
    destruct (ref_count o1 <=? 1).
    + rewrite lookup_delete_ne by done. apply Hsame.
    + rewrite lookup_insert_ne by done. apply Hsame.
  - intros Hiu Hfl Hrc. rewrite Hl. unfold o1. rewrite Hiu.
    unfold release_one, ref_sink. rewrite Hfl. cbn.
    destruct (ref_count o + 1 <=? 1) eqn:E; [apply Z.leb_le in E; lia|].
    destruct o as [ty rc fl]. cbn in *. subst fl. do 2 f_equal. lia.
  - intros Hrc Hfl. rewrite Hl. unfold o1, release_one.
    destruct (initially_unowned o).
    + unfold ref_sink. rewrite Hfl by done. cbn.
      destruct (ref_count o <=? 1) eqn:E; [done|apply Z.leb_gt in E; lia].
    + destruct (ref_count o <=? 1) eqn:E; [done|apply Z.leb_gt in E; lia].
Qed.

End MainLoop.

(** ** Threads never get stuck on the log *)

(** X15: threads whose events are bracketed cannot block each other for good
    on the log mutex: under any schedule, as long as some thread has
    events left, some thread can take its next step; and once every
    thread has run to its end, the mutex is free. *)
Theorem bracketed_threads_progress
    (progs : gmap nat (list LogEvent)) (sched : list nat) :
  map_Forall (λ _ prog, locked_run 0 prog = Some O) progs →
  ((∀ t rest, pending (run_schedule sched (start progs)) !! t = Some rest →
      rest = []) →
   mutex_owner (run_schedule sched (start progs)) = None) ∧
  (∀ t e rest,
     pending (run_schedule sched (start progs)) !! t = Some (e :: rest) →
     ∃ u, thread_step u (run_schedule sched (start progs)) ≠
          run_schedule sched (start progs)).
Proof.
  intros Hb.
  destruct (run_schedule_inv progs sched (start progs) [])
    as [order Hinv]; [by apply world_inv_start|].
  set (w := run_schedule sched (start progs)) in *.
  destruct Hinv as (I1 & I2 & I3 & I4 & I5).
  assert (Howner : ∀ t0, mutex_owner w = Some t0 →
            ∃ e0 r0, pending w !! t0 = Some (e0 :: r0)).
  { intros t0 Ho. destruct (I2 t0 Ho) as [Hpos [prog Hprog]].
    destruct (I3 t0 prog Hprog)
      as (dn & r & d & cl & cur & _ & Hpe & _ & _ & Hrun & Hd & _).
    rewrite decide_True in Hd by done.
    destruct r as [|e0 r0]; [|by eexists _, _].
    cbn in Hrun. injection Hrun as ->. lia. }
  assert (Hmoves : ∀ u e r w',
            pending w !! u = Some (e :: r) →
            pending w' !! u = Some r → w' ≠ w).
  { intros u e r w' Hpe Hpe' ->. rewrite Hpe in Hpe'.
    injection Hpe' as Hl. apply (f_equal length) in Hl. cbn in Hl. lia. }
  split.
  - intros Hdone. destruct (mutex_owner w) as [t0|] eqn:Ho; [|done].
    destruct (Howner t0 eq_refl) as (e0 & r0 & Hpe).
    by specialize (Hdone _ _ Hpe).
  - intros t e rest Hpe.
    destruct (mutex_owner w) as [t0|] eqn:Ho.
    + destruct (Howner t0 eq_refl) as (e0 & r0 & Hpe0).
      exists t0. apply (Hmoves t0 e0 r0); [done|].
      unfold thread_step. rewrite Hpe0, Ho.
      destruct e0; [rewrite decide_True by done|
                    rewrite decide_True by done;
                    destruct (mutex_count w) as [|[|?]]|];
        cbn; apply lookup_insert_eq.
    + destruct (I4 t) as [prog Hprog]; [by rewrite Hpe|].
      destruct (I3 t prog Hprog)
        as (dn & r & d & cl & cur & _ & Hpe' & _ & _ & Hrun & Hd & _).
      rewrite Hpe in Hpe'. injection Hpe' as <-.
      rewrite decide_False in Hd by done. subst d.
      destruct e; [|done|done].
      exists t. apply (Hmoves t MutexLock rest); [done|].
      unfold thread_step. rewrite Hpe, Ho. cbn. apply lookup_insert_eq.
Qed.

(** ** The functions at work *)

Example sample_unref_twice :
  option_map (λ r, (unref_calls r.2, ref_count <$> objects r.2 !! 5,
                    idle_queue r.2))
    ((dbg_g_object_unref 5;; dbg_g_object_unref 5;;
      run_main_loop (H := toy_system) 1) (sample_state true)) =
  Some ([5], Some 1, [(g_object_unref_in_main_loop_fn, 5)]).
Proof. vm_compute. reflexivity. Qed.

Example sample_unref_log :
  option_map (λ r, stderr r.2)
    ((dbg_g_object_unref 5;; run_main_loop (H := toy_system) 1)
       (sample_state true)) =
  Some [Formatted "Unref of %p from idle callback [thread: %p]\n"
                  [ArgPtr 5; ArgPtr 7];
        Formatted "\tIt is of type %s\n" [ArgStr "GObject"];
        Formatted "\tIts refcount before unref is %d\n" [ArgInt 2];
        Formatted "\tUnref done\n" []].
Proof. vm_compute. reflexivity. Qed.

Example sample_new_widget :
  option_map (λ r, (r.1, objects r.2 !! r.1))
    (dbg_g_object_new (H := toy_system) 21 0 [] [] (sample_state false)) =
  Some (7, Some (mkGObject 21 1 false)).
Proof. vm_compute. reflexivity. Qed.

(** With diagnostics on, [dbg_g_object_disown] reads the type and the
    count through the handle; a handle that is no instance faults there,
    where the call with diagnostics off returns. *)
Example disown_dead_handle :
  dbg_g_object_disown (H := toy_system) NULL (sample_state true) = None ∧
  is_Some (dbg_g_object_disown (H := toy_system) NULL (sample_state false)).
Proof. split; [vm_compute; reflexivity|]. vm_compute. by eexists. Qed.

Example sample_interleaving :
  output (run_schedule sample_schedule (start sample_threads)) =
  [(0%nat, Formatted "a1" []); (0%nat, Formatted "a2" []);
   (1%nat, Formatted "b1" []); (1%nat, Formatted "b2" [])].
Proof. vm_compute. reflexivity. Qed.

(** ** The theorems on the samples *)

Lemma deferred_unref_exactly_once_witness :
  idle_queue (sample_state true) = [] ∧
  holds_references (sample_state true) [5; 6; 5] ∧
  (length [5; 6; 5] ≤ 3)%nat ∧
  ∃ st1 st2,
    submit_all dbg_g_object_unref [5; 6; 5] (sample_state true) =
      Some (tt, st1) ∧
    run_main_loop (H := toy_system) 3 st1 = Some (tt, st2) ∧
    idle_queue st2 = [] ∧
    unref_calls st2 = unref_calls (sample_state true) ++ [5; 6; 5].
Proof.
  assert (Hq : idle_queue (sample_state true) = []) by reflexivity.
  assert (Hr : holds_references (sample_state true) [5; 6; 5]).
  { intros h Hh.
    assert (Hc : h = 5 ∨ h = 6).
    { repeat (apply elem_of_cons in Hh as [->|Hh]; [auto|]).
      by apply elem_of_nil in Hh. }
    destruct Hc as [->| ->]; eexists; (split; [reflexivity|]);
      vm_compute; discriminate. }
  assert (Hn : (length [5; 6; 5] ≤ 3)%nat) by (cbn; lia).
  do 3 (split; [assumption|]).
  destruct (deferred_unref_exactly_once (H := toy_system)
              (sample_state true) [5; 6; 5] 3)
    as [(st1 & E1 & _ & _ & _ & Hloop) _].
  destruct (Hloop Hq Hr Hn) as (st2 & E2 & Q2 & U2).
  by exists st1, st2.
Defined.

Lemma deferred_boxed_free_exactly_once_witness :
  idle_queue (sample_state true) = [] ∧
  (length [(40, 77); (41, 78)] ≤ 2)%nat ∧
  ∃ st1 st2,
    submit_all boxed_request [(40, 77); (41, 78)] (sample_state true) =
      Some (tt, st1) ∧
    run_main_loop (H := toy_system) 2 st1 = Some (tt, st2) ∧
    idle_queue st2 = [] ∧
    boxed_free_calls st2 =
      boxed_free_calls (sample_state true) ++ [(40, 77); (41, 78)] ∧
    infos st2 = infos (sample_state true).
Proof.
  assert (Hq : idle_queue (sample_state true) = []) by reflexivity.
  assert (Hn : (length [(40, 77); (41, 78)] ≤ 2)%nat) by (cbn; lia).
  do 2 (split; [assumption|]).
  destruct (deferred_boxed_free_exactly_once (H := toy_system)
              (sample_state true) [(40, 77); (41, 78)] 2)
    as [(ps & st1 & E1 & _ & _ & _ & _ & _ & _ & Hloop) _].
  destruct (Hloop Hq Hn) as (st2 & E2 & Q2 & B2 & I2).
  by exists st1, st2.
Defined.

Lemma dbg_g_object_new_owned_witness :
  let objs := <[7 := mkGObject 21 1 true]> (objects (sample_state true)) in
  construct (NativeSystem := toy_system) 21 (zip (take 0 []) (take 0 []))
            (objects (sample_state true)) = (7, objs) ∧
  objs !! 7 = Some (mkGObject 21 1 true) ∧
  ∃ st' o',
    dbg_g_object_new (H := toy_system) 21 0 [] [] (sample_state true) =
      Some (7, st') ∧
    objects st' !! 7 = Some o' ∧ floating o' = false.
Proof.
  intros objs.
  assert (Hc : construct (NativeSystem := toy_system) 21
                 (zip (take 0 []) (take 0 []))
                 (objects (sample_state true)) = (7, objs))
    by (vm_compute; reflexivity).
  assert (Ho : objs !! 7 = Some (mkGObject 21 1 true))
    by (vm_compute; reflexivity).
  do 2 (split; [assumption|]).
  destruct (dbg_g_object_new_owned (H := toy_system) (sample_state true)
              21 0 [] [] 7 objs (mkGObject 21 1 true))
    as (st' & o' & E & L & F & _); try assumption.
  - cbn. lia.
  - cbn. lia.
  - discriminate.
  - reflexivity.
  - by exists st', o'.
Defined.

Lemma check_object_type_total_witness :
  (5 ≠ NULL ∧
   objects (sample_state true) !! 5 = Some (mkGObject 80 2 false)) ∧
  (∃ r, check_object_type (H := toy_system) 5 80 (sample_state true) =
          Some (r, sample_state true) ∧ r = 1) ∧
  (∃ st', check_object_type (H := toy_system) NULL 80 (sample_state true) =
            Some (0, st')).
Proof.
  assert (Hn : 5 ≠ NULL) by discriminate.
  assert (Ho : objects (sample_state true) !! 5 = Some (mkGObject 80 2 false))
    by (vm_compute; reflexivity).
  split; [by split|]. split.
  - destruct (check_object_type_total (H := toy_system)
                (sample_state true) 5 80) as [_ Hlive].
    destruct (Hlive _ Hn Ho) as (r & E & [_ H1] & _).
    exists r. split; [exact E|]. apply H1. vm_compute. reflexivity.
  - destruct (check_object_type_total (H := toy_system)
                (sample_state true) NULL 80) as [Hnull _].
    destruct (Hnull eq_refl) as (st' & E & _). by exists st'.
Defined.

Lemma safeFreeFunPtr_total_witness :
  9 ≠ NULL ∧
  ∃ st', safeFreeFunPtr 9 (sample_state false) = Some (tt, st') ∧
         native_calls st' = [CallFreeHaskellFunctionPtr 9].
Proof.
  assert (Hn : 9 ≠ NULL) by discriminate.
  split; [assumption|].
  destruct (safeFreeFunPtr_total (sample_state false) 9 3) as (_ & _ & Hp).
  destruct (Hp Hn) as (st' & E & C & _). by exists st'.
Defined.

Lemma print_debug_info_stable_witness :
  let r := run_process (H := toy_system)
             [Call (Exported (Call_check_object_type NULL 80));
              Setenv HASKELL_GI_DEBUG_MEM "1"; ReadFlag;
              Unsetenv HASKELL_GI_DEBUG_MEM; ReadFlag]
             (initial_state ∅ 7) in
  r.1 = [0; 0] ∧
  ∃ st', r.2 = Some st' ∧ getenv_count st' = 1%nat.
Proof.
  intros r.
  assert (Hr : r.1 = [0; 0]) by (vm_compute; reflexivity).
  split; [assumption|].
  destruct (print_debug_info_stable (H := toy_system) ∅ 7
              [Call (Exported (Call_check_object_type NULL 80));
               Setenv HASKELL_GI_DEBUG_MEM "1"; ReadFlag;
               Unsetenv HASKELL_GI_DEBUG_MEM; ReadFlag]) as [_ Hcount].
  fold r in Hcount.
  destruct r.2 as [st'|] eqn:E; [|vm_compute in E; discriminate].
  exists st'. split; [reflexivity|].
  apply (Hcount st' eq_refl). rewrite Hr. discriminate.
Defined.

Lemma logging_gated_by_flag_witness :
  debug_disabled (initial_state ∅ 7) ∧
  ∃ st1 st2,
    dbg_log_with_len [] 5 (initial_state ∅ 7) = Some (tt, st1) ∧
    dbg_log "Check failed: got a null pointer\n" [] (initial_state ∅ 7) =
      Some (tt, st2) ∧
    stderr st1 = [] ∧ stderr st2 = [].
Proof.
  assert (Hd : debug_disabled (initial_state ∅ 7)).
  { right. split; reflexivity. }
  split; [assumption|].
  destruct (logging_gated_by_flag (H := toy_system) (initial_state ∅ 7) [] 5
              "Check failed: got a null pointer\n" [] Hd)
    as [(st1 & st2 & E1 & E2 & S1 & _ & S2 & _) _].
  by exists st1, st2.
Defined.

Lemma dbg_g_object_disown_no_mutation_witness :
  is_Some (objects (sample_state true) !! 5) ∧
  ∃ st', dbg_g_object_disown (H := toy_system) 5 (sample_state true) =
           Some (tt, st') ∧
         objects st' = objects (sample_state true) ∧
         native_calls st' = native_calls (sample_state true).
Proof.
  assert (Hl : is_Some (objects (sample_state true) !! 5)).
  { eexists. vm_compute. reflexivity. }
  split; [assumption|].
  destruct (dbg_g_object_disown_no_mutation (H := toy_system)
              (sample_state true) 5) as [Hframe Hret].
  destruct (Hret (or_introl Hl)) as (st' & E & _).
  destruct (Hframe st' E) as (O & _ & _ & C & _ & _).
  by exists st'.
Defined.

Lemma log_records_contiguous_witness :
  (∃ v s,
     run_log_call (H := toy_system)
       (Exported (Call_dbg_g_object_disown 5)) (sample_state true) =
       Some (v, s) ∧
     ∃ evs, log_events s = log_events (sample_state true) ++ evs ∧
            locked_run 0 evs = Some O) ∧
  map_Forall (λ _ prog, locked_run 0 prog = Some O) sample_threads ∧
  ∃ order,
    output (run_schedule sample_schedule (start sample_threads)) =
      flat_map (λ r, map (pair r.1) r.2) order.
Proof.
  split; [|split].
  - eexists _, _. split; [vm_compute; reflexivity|].
    match goal with
    | |- ∃ evs, log_events ?s = _ ∧ _ =>
        destruct (log_records_contiguous (H := toy_system)
                    (Exported (Call_dbg_g_object_disown 5))
                    (sample_state true) s Void ∅ []) as [Hcall _]
    end.
    destruct Hcall as (evs & E & B & _); [vm_compute; reflexivity|].
    by exists evs.
  - apply map_Forall_insert_2; [reflexivity|].
    apply map_Forall_singleton. reflexivity.
  - destruct (log_records_contiguous (H := toy_system)
                (Call_dbg_log_with_len [] 0) (sample_state true)
                (sample_state true) Void sample_threads sample_schedule)
      as [_ Hsched].
    destruct Hsched as (order & E & _).
    + apply map_Forall_insert_2; [reflexivity|].
      apply map_Forall_singleton. reflexivity.
    + by exists order.
Defined.

Lemma debug_toggle_noninterference_witness :
  native (sample_state true) = native (sample_state false) ∧
  handle_live (Call_dbg_g_object_disown 5) (sample_state true) ∧
  observe (run_call (H := toy_system) (Call_dbg_g_object_disown 5)
             (sample_state true)) =
  observe (run_call (H := toy_system) (Call_dbg_g_object_disown 5)
             (sample_state false)).
Proof.
  assert (Hn : native (sample_state true) = native (sample_state false))
    by reflexivity.
  assert (Hl : handle_live (Call_dbg_g_object_disown 5) (sample_state true)).
  { eexists. vm_compute. reflexivity. }
  do 2 (split; [assumption|]).
  destruct (debug_toggle_noninterference (H := toy_system)
              (Call_dbg_g_object_disown 5)
              (sample_state true) (sample_state false) Hn) as (_ & Hobs & _).
  exact (Hobs Hl).
Defined.

(** Without the condition on the handle the flag does more than write:
    [dbg_g_object_disown] on [NULL] returns with diagnostics off and
    faults with diagnostics on, where it reads the type of the instance
    through the handle.  So the two runs of the same call on states with
    the same native part are not always the same to the caller. *)
Lemma disown_null_depends_on_toggle :
  native (sample_state true) = native (sample_state false) ∧
  run_call (H := toy_system) (Call_dbg_g_object_disown NULL)
           (sample_state true) = None ∧
  observe (run_call (H := toy_system) (Call_dbg_g_object_disown NULL)
                    (sample_state false)) =
    Some (Void, native (sample_state false)) ∧
  ¬ (∀ (c : ApiCall) (st1 st2 : State),
       native st1 = native st2 →
       observe (run_call (H := toy_system) c st1) =
       observe (run_call (H := toy_system) c st2)).
Proof.
  assert (Hn : native (sample_state true) = native (sample_state false))
    by reflexivity.
  assert (Hon : run_call (H := toy_system) (Call_dbg_g_object_disown NULL)
                  (sample_state true) = None)
    by (vm_compute; reflexivity).
  assert (Hoff : observe (run_call (H := toy_system)
                            (Call_dbg_g_object_disown NULL)
                            (sample_state false)) =
                 Some (Void, native (sample_state false)))
    by (vm_compute; reflexivity).
  do 3 (split; [assumption|]).
  intros Hall.
  specialize (Hall (Call_dbg_g_object_disown NULL)
                   (sample_state true) (sample_state false) Hn).
  rewrite Hon, Hoff in Hall. discriminate Hall.
Qed.

(** ** The further theorems on the samples *)

Lemma sample_debug_enabled : debug_enabled (sample_state true).
Proof. intros Hf. vm_compute in Hf. discriminate. Defined.

Lemma dbg_log_follows_variable_witness :
  debug_cache (initial_state {[HASKELL_GI_DEBUG_MEM := ""]} 7) = -1 ∧
  environ (initial_state {[HASKELL_GI_DEBUG_MEM := ""]} 7)
    !! HASKELL_GI_DEBUG_MEM = Some "" ∧
  ∃ st', dbg_log "line" [] (initial_state {[HASKELL_GI_DEBUG_MEM := ""]} 7) =
           Some (tt, st') ∧
         stderr st' = [Formatted "line" []] ∧ debug_cache st' = 1.
Proof.
  assert (Hc : debug_cache (initial_state {[HASKELL_GI_DEBUG_MEM := ""]} 7)
               = -1) by reflexivity.
  assert (He : environ (initial_state {[HASKELL_GI_DEBUG_MEM := ""]} 7)
                 !! HASKELL_GI_DEBUG_MEM = Some "")
    by (vm_compute; reflexivity).
  do 2 (split; [assumption|]).
  destruct (dbg_log_follows_variable
              (initial_state {[HASKELL_GI_DEBUG_MEM := ""]} 7) "line" [] Hc)
    as [Hset _].
  destruct (Hset "" He) as (st' & E & S & C & _).
  by exists st'.
Defined.

Lemma dbg_log_with_len_writes_prefix_witness :
  debug_enabled (sample_state true) ∧
  ∃ st', dbg_log_with_len [Byte.x61; Byte.x00; Byte.x62; Byte.x63] 3 (sample_state true) =
           Some (tt, st') ∧
         stderr st' = [Bytes [Byte.x61; Byte.x00; Byte.x62]].
Proof.
  split; [exact sample_debug_enabled|].
  destruct (dbg_log_with_len_writes_prefix (sample_state true)
              [Byte.x61; Byte.x00; Byte.x62] [Byte.x63] sample_debug_enabled)
    as (st' & E & L & _).
  exists st'. split; [exact E|]. unfold stderr. rewrite L. reflexivity.
Defined.

Lemma check_object_type_reports_null_witness :
  debug_enabled (sample_state true) ∧
  ∃ st', check_object_type (H := toy_system) NULL 80 (sample_state true) =
           Some (0, st') ∧
         stderr st' = [Formatted "Check failed: got a null pointer\n" []].
Proof.
  split; [exact sample_debug_enabled|].
  destruct (check_object_type_reports_null (H := toy_system)
              (sample_state true) 80 sample_debug_enabled)
    as (st' & E & S & _).
  by exists st'.
Defined.

Lemma unref_callback_reports_count_before_witness :
  debug_enabled (sample_state true) ∧
  objects (sample_state true) !! 5 = Some (mkGObject 80 2 false) ∧
  ∃ st', g_object_unref_in_main_loop (H := toy_system) 5 (sample_state true) =
           Some (FALSE, st') ∧
         stderr st' !! 2%nat =
           Some (Formatted "\tIts refcount before unref is %d\n" [ArgInt 2]) ∧
         ref_count <$> objects st' !! 5 = Some 1.
Proof.
  assert (Ho : objects (sample_state true) !! 5 = Some (mkGObject 80 2 false))
    by (vm_compute; reflexivity).
  split; [exact sample_debug_enabled|]. split; [assumption|].
  destruct (unref_callback_reports_count_before (H := toy_system)
              (sample_state true) 5 _ sample_debug_enabled Ho)
    as (st' & E & S & O & _).
  exists st'. split; [exact E|]. rewrite S, O. split; reflexivity.
Defined.

Lemma disown_reports_instance_witness :
  debug_enabled (sample_state true) ∧
  objects (sample_state true) !! 6 = Some (mkGObject 21 1 true) ∧
  ∃ st', dbg_g_object_disown (H := toy_system) 6 (sample_state true) =
           Some (tt, st') ∧
         stderr st' !! 1%nat =
           Some (Formatted "\tIt is of type %s\n" [ArgStr "GtkWidget"]).
Proof.
  assert (Ho : objects (sample_state true) !! 6 = Some (mkGObject 21 1 true))
    by (vm_compute; reflexivity).
  split; [exact sample_debug_enabled|]. split; [assumption|].
  destruct (disown_reports_instance (H := toy_system)
              (sample_state true) 6 _ sample_debug_enabled Ho)
    as (st' & E & S & _).
  exists st'. split; [exact E|]. rewrite S. reflexivity.
Defined.

Lemma boxed_callback_reports_value_witness :
  debug_enabled sample_boxed_state ∧
  infos sample_boxed_state !! 9 = Some (mkBoxedFreeInfo 40 77) ∧
  ∃ st', main_loop_boxed_free_helper (H := toy_system) 9 sample_boxed_state =
           Some (FALSE, st') ∧
         boxed_free_calls st' = [(40, 77)].
Proof.
  assert (Hen : debug_enabled sample_boxed_state).
  { intros Hf. vm_compute in Hf. discriminate. }
  assert (Hr : infos sample_boxed_state !! 9 = Some (mkBoxedFreeInfo 40 77))
    by (vm_compute; reflexivity).
  do 2 (split; [assumption|]).
  destruct (boxed_callback_reports_value (H := toy_system)
              sample_boxed_state 9 _ Hen Hr) as (st' & E & _ & B).
  by exists st'.
Defined.

Lemma new_reports_type_and_pointer_witness :
  debug_enabled (sample_state true) ∧
  ∃ st', dbg_g_object_new (H := toy_system) 21 0 [] [] (sample_state true) =
           Some (7, st') ∧
         stderr st' =
           [Formatted "Creating a new GObject of type %s [thread: %p]\n"
                      [ArgStr "GtkWidget"; ArgPtr 7];
            Formatted "\tdone, got a pointer at %p\n" [ArgPtr 7]].
Proof.
  split; [exact sample_debug_enabled|].
  destruct (new_reports_type_and_pointer (H := toy_system)
              (sample_state true) 21 0 [] [] 7
              (<[7 := mkGObject 21 1 true]> (objects (sample_state true)))
              sample_debug_enabled)
    as (st' & E & S & _).
  - cbn. lia.
  - cbn. lia.
  - vm_compute. reflexivity.
  - right. eexists. vm_compute. reflexivity.
  - by exists st'.
Defined.

Lemma new_passes_null_on_witness :
  construct (NativeSystem := toy_system) 0 (zip (take 0 []) (take 0 []))
            (objects (sample_state true)) =
    (NULL, objects (sample_state true)) ∧
  ∃ st', dbg_g_object_new (H := toy_system) 0 0 [] [] (sample_state true) =
           Some (NULL, st') ∧
         objects st' = objects (sample_state true).
Proof.
  assert (Hc : construct (NativeSystem := toy_system) 0
                 (zip (take 0 []) (take 0 []))
                 (objects (sample_state true)) =
               (NULL, objects (sample_state true)))
    by (vm_compute; reflexivity).
  split; [assumption|].
  destruct (new_passes_null_on (H := toy_system) (sample_state true)
              0 0 [] [] (objects (sample_state true)))
    as (st' & E & O & _); [cbn; lia|cbn; lia|exact Hc|].
  by exists st'.
Defined.

Lemma log_mutex_locked_twice_witness :
  debug_enabled (sample_state true) ∧
  frames_record (Exported (Call_dbg_g_object_disown 5)) = true ∧
  ∃ v s evs,
    run_log_call (H := toy_system)
      (Exported (Call_dbg_g_object_disown 5)) (sample_state true) =
      Some (v, s) ∧
    log_events s = log_events (sample_state true) ++ evs ∧
    deepest 0 evs = 2%nat.
Proof.
  split; [exact sample_debug_enabled|]. split; [reflexivity|].
  eexists _, _.
  match goal with
  | |- ∃ evs, ?run = Some (?v, ?s) ∧ _ =>
      assert (E : run = Some (v, s)) by (vm_compute; reflexivity)
  end.
  destruct (log_mutex_locked_twice (H := toy_system) _ _ _ _ E)
    as (evs & L & _ & Hd).
  exists evs. split; [exact E|]. split; [exact L|].
  apply Hd; [exact sample_debug_enabled|reflexivity].
Defined.

Lemma sample_queue_ready :
  queue_ready sample_queued_state (idle_queue sample_queued_state).
Proof.
  split; [|split].
  - intros h Hh.
    assert (Hc : h = 5 ∨ h = 6).
    { repeat (apply elem_of_cons in Hh as [->|Hh]; [auto|]).
      by apply elem_of_nil in Hh. }
    destruct Hc as [->| ->]; eexists; (split; [reflexivity|]);
      vm_compute; discriminate.
  - repeat constructor. intros Hp. by apply elem_of_nil in Hp.
  - intros p Hp.
    assert (Hc : p = 9).
    { apply elem_of_cons in Hp as [->|Hp]; [done|].
      by apply elem_of_nil in Hp. }
    subst p. split; [discriminate|]. eexists. vm_compute. reflexivity.
Defined.

Lemma main_loop_serves_in_order_witness :
  queue_ready sample_queued_state (idle_queue sample_queued_state) ∧
  ∃ st', run_main_loop (H := toy_system) 2 sample_queued_state =
           Some (tt, st') ∧
         idle_queue st' = [(g_object_unref_in_main_loop_fn, 6)] ∧
         native_calls st' = [CallUnref 5; CallBoxedFree 40 77; CallFree 9].
Proof.
  split; [exact sample_queue_ready|].
  destruct (main_loop_serves_in_order (H := toy_system)
              sample_queued_state 2 1 sample_queue_ready)
    as (st' & E & Q & C & _).
  exists st'. split; [exact E|]. rewrite Q, C. split; reflexivity.
Defined.

Lemma requests_served_in_order_witness :
  idle_queue (sample_state true) = [] ∧
  holds_references (sample_state true)
    (released_handles [ReleaseObject 5; FreeBoxed 40 77; ReleaseObject 6]) ∧
  ∃ st1 st2,
    submit_all submit_request
      [ReleaseObject 5; FreeBoxed 40 77; ReleaseObject 6]
      (sample_state true) = Some (tt, st1) ∧
    run_main_loop (H := toy_system) 2 st1 = Some (tt, st2) ∧
    disposal_calls st2 = [CallUnref 5; CallBoxedFree 40 77] ∧
    length (idle_queue st2) = 1%nat.
Proof.
  assert (Hq : idle_queue (sample_state true) = []) by reflexivity.
  assert (Hr : holds_references (sample_state true)
                 (released_handles
                    [ReleaseObject 5; FreeBoxed 40 77; ReleaseObject 6])).
  { intros h Hh.
    assert (Hc : h = 5 ∨ h = 6).
    { repeat (apply elem_of_cons in Hh as [->|Hh]; [auto|]).
      by apply elem_of_nil in Hh. }
    destruct Hc as [->| ->]; eexists; (split; [reflexivity|]);
      vm_compute; discriminate. }
  do 2 (split; [assumption|]).
  destruct (requests_served_in_order (H := toy_system) (sample_state true)
              [ReleaseObject 5; FreeBoxed 40 77; ReleaseObject 6] 2 Hq Hr)
    as (st1 & st2 & E1 & _ & E2 & D2 & L2).
  by exists st1, st2.
Defined.

Lemma construct_then_release_witness :
  let objs := <[7 := mkGObject 21 1 true]> (objects (sample_state false)) in
  construct (NativeSystem := toy_system) 21 (zip (take 0 []) (take 0 []))
            (objects (sample_state false)) = (7, objs) ∧
  objs !! 7 = Some (mkGObject 21 1 true) ∧
  idle_queue (sample_state false) = [] ∧
  ∃ st',
    (do h <- dbg_g_object_new (H := toy_system) 21 0 [] [];
     dbg_g_object_unref h;;
     run_main_loop (H := toy_system) 1) (sample_state false) =
      Some (tt, st') ∧
    objects st' !! 7 = None ∧ idle_queue st' = [].
Proof.
  intros objs.
  assert (Hc : construct (NativeSystem := toy_system) 21
                 (zip (take 0 []) (take 0 []))
                 (objects (sample_state false)) = (7, objs))
    by (vm_compute; reflexivity).
  assert (Ho : objs !! 7 = Some (mkGObject 21 1 true))
    by (vm_compute; reflexivity).
  assert (Hq : idle_queue (sample_state false) = []) by reflexivity.
  do 3 (split; [assumption|]).
  destruct (construct_then_release (H := toy_system) (sample_state false)
              21 0 [] [] 7 objs (mkGObject 21 1 true))
    as (st' & E & Q & _ & _ & _ & Hfin); try assumption.
  - cbn. lia.
  - cbn. lia.
  - discriminate.
  - exists st'. split; [exact E|]. split; [|exact Q].
    apply Hfin; [cbn; lia|reflexivity].
Defined.

Lemma bracketed_threads_progress_witness :
  map_Forall (λ _ prog, locked_run 0 prog = Some O) sample_threads ∧
  ∃ u, thread_step u (run_schedule [0; 1; 0]%nat (start sample_threads)) ≠
       run_schedule [0; 1; 0]%nat (start sample_threads).
Proof.
  assert (Hb : map_Forall (λ _ prog, locked_run 0 prog = Some O)
                 sample_threads).
  { apply map_Forall_insert_2; [reflexivity|].
    apply map_Forall_singleton. reflexivity. }
  split; [assumption|].
  destruct (bracketed_threads_progress sample_threads [0; 1; 0]%nat Hb)
    as [_ Hstep].
  eapply (Hstep 1%nat). vm_compute. reflexivity.
Defined.
